(** * FANAL analysis functions: [fanal/ana/ana_functions.py]

    A shallow embedding of [get_new_energies], [get_voxel_track_relations]
    and [process_tracks], and the properties of the written specification
    that concern them.

    Numbers.  The source computes on float64 values.  Here energies and
    coordinates are exact: integers counting a fixed small unit, so that
    sums are associative and comparisons are decidable by evaluation.  The
    only irrational quantity of the source, the Euclidean distance
    [np.sqrt(dx**2 + dy**2 + dz**2)], is kept as the exact number "square
    root of r" (type [Dist]); the source only ever compares two distances
    with [<], and the square root is strictly increasing.

    Rounding.  An addition of float64 values rounds where the exact sum
    needs more than 53 bits.  What is stated about totals is stated on
    [get_new_energies_b64] and [b64_sum], in which every addition rounds as
    float64 does. *)

From Stdlib Require Import ZArith List Bool Lia Sorted Permutation.
Import ListNotations.
Local Open Scope Z_scope.

(** ** Errors

    A Python call either returns or raises; [None] stands for a raised
    exception, which aborts the enclosing function. *)

Definition bind {A B : Type} (m : option A) (k : A -> option B) : option B :=
  match m with
  | Some a => k a
  | None => None
  end.

Notation "x <- m ;; k" := (bind m (fun x => k))
  (at level 61, m at next level, right associativity).

(** [for x in l: s = body(s, x)] with a body that may raise. *)
Fixpoint for_each {S A : Type} (body : S -> A -> option S) (l : list A) (s : S)
  : option S :=
  match l with
  | [] => Some s
  | x :: l' => s' <- body s x ;; for_each body l' s'
  end.

(** The builtin [sum] over a finite iterable, starting from 0. *)
Definition sum (l : list Z) : Z := fold_left Z.add l 0.

(** ** Distances *)

(** [sqrt_of r] is the real number whose square is [r] (for [0 <= r]). *)
Record Dist : Type := sqrt_of { radicand : Z }.

Definition np_sqrt (r : Z) : Dist := sqrt_of r.

(** A non-negative integer literal read as a distance: n = sqrt (n * n). *)
Definition dist_of_int (n : Z) : Dist := sqrt_of (n * n).

Definition dist_ltb (a b : Dist) : bool := radicand a <? radicand b.

(** ** Data model *)

(** One row of the voxel table: the columns the functions read. *)
Record Voxel : Type := mkVoxel
  { X : Z; Y : Z; Z_ : Z; E : Z; negli : bool }.

(** Index labels of a [pd.DataFrame]. *)
Definition label : Type := Z.

(** The voxel table, in row order; [iterrows] yields exactly these pairs. *)
Definition DataFrame : Type := list (label * Voxel).

Definition iterrows (df : DataFrame) : list (label * Voxel) := df.

(** [df.index] *)
Definition index (df : DataFrame) : list label := map fst df.

(** [l in df.index] *)
Definition in_index (l : label) (df : DataFrame) : bool :=
  existsb (Z.eqb l) (index df).

(** [df.loc[l]] for a table whose labels are unique; [KeyError] is [None]. *)
Fixpoint loc (df : DataFrame) (l : label) : option Voxel :=
  match df with
  | [] => None
  | (l', v) :: df' => if l =? l' then Some v else loc df' l
  end.

(** [event_voxels[event_voxels.negli == True]]: the rows keep their labels. *)
Definition select_negli (event_voxels : DataFrame) : DataFrame :=
  filter (fun r => Bool.eqb (negli (snd r)) true) event_voxels.

(** ** [get_new_energies] *)

(** The Euclidean distance of lines 46-48. *)
Definition distance (a b : Voxel) : Dist :=
  np_sqrt ((X a - X b) ^ 2 + (Y a - Y b) ^ 2 + (Z_ a - Z_ b) ^ 2).

(** Body of the inner loop (lines 45-51); the state is
    [(min_dist, closest_index)]. *)
Definition closest_step (negl_voxels : DataFrame) (i : label) (negl_voxel : Voxel)
    (st : Dist * label) (row : label * Voxel) : Dist * label :=
  let '(min_dist, closest_index) := st in
  let '(j, event_voxel) := row in
  if negb (i =? j) && negb (in_index j negl_voxels) then
    let dist := distance negl_voxel event_voxel in
    if dist_ltb dist min_dist then (dist, j) else (min_dist, closest_index)
  else (min_dist, closest_index).

(** Lines 42-51: the search for the closest neighbour of one negligible
    voxel, from [min_dist = 1000] and [closest_index = i]. *)
Definition closest_search (event_voxels negl_voxels : DataFrame)
    (i : label) (negl_voxel : Voxel) : Dist * label :=
  fold_left (closest_step negl_voxels i negl_voxel) (iterrows event_voxels)
            (dist_of_int 1000, i).

Definition closest_index (event_voxels : DataFrame) (i : label) (negl_voxel : Voxel)
  : label :=
  snd (closest_search event_voxels (select_negli event_voxels) i negl_voxel).

(** Lines 37-54: [negl_neig_pairs]; [neig_index] is its second projection. *)
Definition negl_neig_pairs (event_voxels : DataFrame) : list (label * label) :=
  map (fun r => (fst r, closest_index event_voxels (fst r) (snd r)))
      (iterrows (select_negli event_voxels)).

Definition neig_index (event_voxels : DataFrame) : list label :=
  map snd (negl_neig_pairs event_voxels).

(** Lines 69-70: the generator summed into [extraE], as the list of its
    values; a failing [loc] raises. *)
Fixpoint extra_terms (event_voxels : DataFrame) (pairs : list (label * label))
    (i : label) : option (list Z) :=
  match pairs with
  | [] => Some []
  | p :: pairs' =>
      if i =? snd p then
        v <- loc event_voxels (fst p) ;;
        rest <- extra_terms event_voxels pairs' i ;;
        Some (E v :: rest)
      else extra_terms event_voxels pairs' i
  end.

(** Body of the second loop (lines 61-74). *)
Definition new_energy_step (event_voxels : DataFrame)
    (new_energies : list Z) (row : label * Voxel) : option (list Z) :=
  let '(i, event_voxel) := row in
  if in_index i (select_negli event_voxels) then
    Some (new_energies ++ [0])
  else if existsb (Z.eqb i) (neig_index event_voxels) then
    let new_voxelE := E event_voxel in
    terms <- extra_terms event_voxels (negl_neig_pairs event_voxels) i ;;
    let extraE := sum terms in
    Some (new_energies ++ [new_voxelE + extraE])
  else
    Some (new_energies ++ [E event_voxel]).

Definition get_new_energies (event_voxels : DataFrame) : option (list Z) :=
  for_each (new_energy_step event_voxels) (iterrows event_voxels) [].

(** ** [get_voxel_track_relations] *)

(** A node of a track: the voxel object stored in the graph. *)
Record Node : Type := mkNode { nX : Z; nY : Z; nZ : Z; nE : Z }.

(** A track: a [networkx.Graph].  [nodes] is the order in which the graph
    iterates over its nodes; the edges are read only by the external
    [track_length]. *)
Record Graph : Type := mkGraph
  { nodes : list Node; edges : list (Node * Node) }.

(** An entry of the returned list: a track index [j], or [np.nan]. *)
Inductive track_ref : Type :=
  | TrackId (j : nat)
  | NoTrack.

Definition position : Type := (Z * Z * Z)%type.

Definition voxel_pos (v : Voxel) : position := (X v, Y v, Z_ v).
Definition node_pos (n : Node) : position := (nX n, nY n, nZ n).

(** [==] on two 3-tuples of numbers. *)
Definition pos_eqb (p q : position) : bool :=
  let '(px, py, pz) := p in
  let '(qx, qy, qz) := q in
  (px =? qx) && (py =? qy) && (pz =? qz).

(** Lines 104-110: the loop over the nodes of track [j]; the state is
    [(found, voxel_tracks)] and a match leaves the loop. *)
Fixpoint scan_nodes (vpos : position) (j : nat) (ns : list Node)
    (st : bool * list track_ref) : bool * list track_ref :=
  match ns with
  | [] => st
  | node :: ns' =>
      if pos_eqb vpos (node_pos node)
      then (true, snd st ++ [TrackId j])
      else scan_nodes vpos j ns' st
  end.

(** Lines 103-111: the loop over [range(len(event_tracks))], entered at
    index [j] with the tracks from [j] on; [if found: break]. *)
Fixpoint scan_tracks (vpos : position) (j : nat) (tracks : list Graph)
    (st : bool * list track_ref) : bool * list track_ref :=
  match tracks with
  | [] => st
  | t :: tracks' =>
      let st' := scan_nodes vpos j (nodes t) st in
      if fst st' then st' else scan_tracks vpos (S j) tracks' st'
  end.

(** Body of the loop over the voxels (lines 99-114). *)
Definition relation_step (event_tracks : list Graph)
    (voxel_tracks : list track_ref) (row : label * Voxel) : list track_ref :=
  let '(_, event_voxel) := row in
  if negb (negli event_voxel) then
    snd (scan_tracks (voxel_pos event_voxel) 0 event_tracks (false, voxel_tracks))
  else
    voxel_tracks ++ [NoTrack].

Definition get_voxel_track_relations (event_voxels : DataFrame)
    (event_tracks : list Graph) : list track_ref :=
  fold_left (relation_step event_tracks) (iterrows event_voxels) [].

(** ** [process_tracks] *)

(** The builtin [sorted(l, key=key, reverse=reverse)]: a stable sort.  The
    element [x] stood before every element of [l] in the input, so it goes
    in front of the first element that does not have to precede it. *)
Definition goes_before {A : Type} (key : A -> Z) (reverse : bool) (x y : A) : bool :=
  if reverse then key y <=? key x else key x <=? key y.

Fixpoint sorted_insert {A : Type} (key : A -> Z) (reverse : bool) (x : A)
    (l : list A) : list A :=
  match l with
  | [] => [x]
  | y :: l' =>
      if goes_before key reverse x y then x :: y :: l'
      else y :: sorted_insert key reverse x l'
  end.

Definition sorted {A : Type} (key : A -> Z) (reverse : bool) (l : list A) : list A :=
  fold_right (sorted_insert key reverse) [] l.

(** The tuples [(track_E, track_l, track)]. *)
Definition scored_track : Type := (Z * Z * Graph)%type.

(** [itemgetter(0)], [itemgetter(1)] and [itemgetter(2)] on such a tuple. *)
Definition item0 (s : scored_track) : Z := fst (fst s).
Definition item1 (s : scored_track) : Z := snd (fst s).
Definition item2 (s : scored_track) : Graph := snd s.

(** Line 147: [sum(voxel.E for voxel in event_tracks[i])]. *)
Definition track_energy (t : Graph) : Z := sum (map nE (nodes t)).

(** Body of the loop of lines 144-156.  [track_length] is
    [invisible_cities.reco.paolina_functions.length], which is not part of
    this repository: it is a parameter, and may raise. *)
Definition score_step (track_length : Graph -> option Z) (track_Eth : Z)
    (event_tracks_withE : list scored_track) (t : Graph)
  : option (list scored_track) :=
  let track_E := track_energy t in
  if track_E >=? track_Eth then
    track_l <- track_length t ;;
    Some (event_tracks_withE ++ [(track_E, track_l, t)])
  else
    Some event_tracks_withE.

Definition process_tracks (track_length : Graph -> option Z)
    (event_tracks : list Graph) (track_Eth : Z) : option (list scored_track) :=
  event_tracks_withE <- for_each (score_step track_length track_Eth) event_tracks [] ;;
  Some (sorted item0 true event_tracks_withE).

(** ** [get_new_energies] with the rounding of binary64

    The additions of lines 69-71 are additions of float64 values: the exact
    sum, rounded to 53 significant bits, ties to even.  On integer values
    (equally, on integer multiples of one power of two) that rounding is
    [b64_round]; magnitudes stay far below the overflow threshold 2^1024.
    The loops are those of [get_new_energies]; only [+] and [sum] round. *)

Definition b64_round (x : Z) : Z :=
  let a := Z.abs x in
  if a <? 2 ^ 53 then x
  else
    let s := Z.log2 a - 52 in
    let q := Z.shiftr a s in
    let r := a - Z.shiftl q s in
    let half := 2 ^ (s - 1) in
    let q' := if r <? half then q
              else if half <? r then q + 1
              else if Z.even q then q else q + 1 in
    Z.sgn x * Z.shiftl q' s.

(** [a + b] on two float64 values. *)
Definition b64_add (a b : Z) : Z := b64_round (a + b).

(** The builtin [sum] over float64 values, starting from the integer 0. *)
Definition b64_sum (l : list Z) : Z := fold_left b64_add l 0.

Definition new_energy_step_b64 (event_voxels : DataFrame)
    (new_energies : list Z) (row : label * Voxel) : option (list Z) :=
  let '(i, event_voxel) := row in
  if in_index i (select_negli event_voxels) then
    Some (new_energies ++ [0])
  else if existsb (Z.eqb i) (neig_index event_voxels) then
    let new_voxelE := E event_voxel in
    terms <- extra_terms event_voxels (negl_neig_pairs event_voxels) i ;;
    let extraE := b64_sum terms in
    Some (new_energies ++ [b64_add new_voxelE extraE])
  else
    Some (new_energies ++ [E event_voxel]).

Definition get_new_energies_b64 (event_voxels : DataFrame) : option (list Z) :=
  for_each (new_energy_step_b64 event_voxels) (iterrows event_voxels) [].

(** ** Inputs of the worked examples *)

(** The first example of the specification. *)
Definition example1 : DataFrame :=
  [ (0, mkVoxel 0 0 0 5 false);
    (1, mkVoxel 1 0 0 1 true);
    (2, mkVoxel 10 0 0 3 false) ].

(** A negligible voxel 1200 away from the only significant voxel. *)
Definition far_voxels : DataFrame :=
  [ (0, mkVoxel 0 0 0 5 false);
    (1, mkVoxel 1200 0 0 1 true) ].

(** A negligible voxel at distance 1 from two significant voxels. *)
Definition tie_voxels : DataFrame :=
  [ (0, mkVoxel 2 0 0 5 false);
    (1, mkVoxel 1 0 0 1 true);
    (2, mkVoxel 0 0 0 3 false) ].

(** Energies 1, 1 and 2^53: both negligible voxels are paired with the
    significant voxel in the middle. *)
Definition rounding_voxels : DataFrame :=
  [ (0, mkVoxel 0 0 0 1 true);
    (1, mkVoxel 1 0 0 1 false);
    (2, mkVoxel 2 0 0 (2 ^ 53) true) ].

(** An event with a single voxel, which is negligible. *)
Definition lone_negligible : DataFrame :=
  [ (0, mkVoxel 0 0 0 1 true) ].

(** A track of one node of energy [e] at [(x, 0, 0)]. *)
Definition single (x e : Z) : Graph := mkGraph [mkNode x 0 0 e] [].

(** A length function that never raises. *)
Definition unit_length (t : Graph) : option Z := Some (Z.of_nat (length (nodes t))).

(** A length function that always raises. *)
Definition no_length (t : Graph) : option Z := None.

(** ** Vocabulary of the properties *)

(** The rows [j] that the inner loop measures for the negligible voxel [i]:
    the guard of line 45. *)
Definition measured (negl_voxels : DataFrame) (i j : label) : bool :=
  negb (i =? j) && negb (in_index j negl_voxels).

(** The energies of a table, in row order. *)
Definition energies (df : DataFrame) : list Z := map (fun r => E (snd r)) df.

(** [a <= b] on distances. *)
Definition dist_le (a b : Dist) : Prop := radicand a <= radicand b.

(** The significant voxel [vj] is closer to [vn] than the initial
    [min_dist = 1000] of the search. *)
Definition within_reach (vn vj : Voxel) : Prop :=
  dist_ltb (distance vn vj) (dist_of_int 1000) = true.

(** Every negligible voxel of the table has a significant voxel of the
    table within reach. *)
Definition all_within_reach (df : DataFrame) : Prop :=
  forall n vn, In (n, vn) df -> negli vn = true ->
    exists j vj, In (j, vj) df /\ negli vj = false /\ within_reach vn vj.

(** The voxel that the search of lines 40-54 pairs with the row [r]. *)
Definition target (df : DataFrame) (r : label * Voxel) : label :=
  closest_index df (fst r) (snd r).

(** The energy of the negligible rows that are paired with label [i]. *)
Definition routed (df : DataFrame) (i : label) : Z :=
  sum (energies (filter (fun r => i =? target df r) (select_negli df))).

(** The value appended for the row [r] by the second loop. *)
Definition new_energy (df : DataFrame) (r : label * Voxel) : Z :=
  if negli (snd r) then 0 else E (snd r) + routed df (fst r).

(** The returned energies [out] account for the negligible rows of [df]:
    each negligible row gets 0; each is paired, by [tgt], with the one row
    of the table that carries the label [tgt r], a significant row; and each
    significant row gets its own energy plus the energies of the negligible
    rows paired with it. *)
Definition routes_once (df : DataFrame) (out : list Z) : Prop :=
  (forall k i v, nth_error df k = Some (i, v) -> negli v = true ->
                 nth_error out k = Some 0)
  /\ exists tgt : label * Voxel -> label,
       (forall r, In r df -> negli (snd r) = true ->
          exists k vt, nth_error df k = Some (tgt r, vt) /\ negli vt = false
            /\ forall k' r', nth_error df k' = Some r' -> fst r' = tgt r -> k' = k)
       /\ (forall k j vj, nth_error df k = Some (j, vj) -> negli vj = false ->
             nth_error out k
             = Some (E vj + sum (energies
                              (filter (fun r => negli (snd r) && (tgt r =? j)) df)))).

(** The sum of the absolute values. *)
Definition abs_sum (l : list Z) : Z := sum (map Z.abs l).

(** The energies of the table are integers whose absolute values add up to
    at most 2^53: every sum of some of them is a float64 value, so no
    addition over them rounds. *)
Definition exact_energies (df : DataFrame) : Prop :=
  abs_sum (energies df) <= 2 ^ 53.

(** [a < b] on distances. *)
Definition dist_lt (a b : Dist) : Prop := radicand a < radicand b.

(** Some significant voxel of the table is within reach of [vn]. *)
Definition reachable (df : DataFrame) (vn : Voxel) : bool :=
  existsb (fun s => negb (negli (snd s))
                    && dist_ltb (distance vn (snd s)) (dist_of_int 1000)) df.

(** The negligible rows that have no significant voxel within reach. *)
Definition unreached (df : DataFrame) : DataFrame :=
  filter (fun r => negb (reachable df (snd r))) (select_negli df).

(** Two tables with the same labels, positions and flags, row by row; the
    energies may differ. *)
Definition same_geometry (df df' : DataFrame) : Prop :=
  Forall2 (fun r r' => fst r = fst r'
                       /\ voxel_pos (snd r) = voxel_pos (snd r')
                       /\ negli (snd r) = negli (snd r')) df df'.

(** Track [t] has a node at position [p], as a test. *)
Definition has_pos (t : Graph) (p : position) : bool :=
  existsb (fun node => pos_eqb p (node_pos node)) (nodes t).

(** The voxel [v] is given an entry: it is negligible, or some track has a
    node at its position. *)
Definition has_entry (event_tracks : list Graph) (v : Voxel) : bool :=
  negli v || existsb (fun t => has_pos t (voxel_pos v)) event_tracks.

(** The entry is the marker [np.nan]. *)
Definition is_no_track (x : track_ref) : bool :=
  match x with
  | NoTrack => true
  | TrackId _ => false
  end.

(** Track [t] has a node at position [p]. *)
Definition contains_pos (t : Graph) (p : position) : Prop :=
  exists node, In node (nodes t) /\ node_pos node = p.

(** * Properties *)

(** ** Worked examples *)

Example get_new_energies_example1 :
  get_new_energies example1 = Some [6; 0; 3].
Proof. reflexivity. Qed.

Example process_tracks_example2 :
  option_map (map item0)
    (process_tracks unit_length [single 0 50; single 1 10; single 2 80] 20)
  = Some [80; 50].
Proof. reflexivity. Qed.

Example process_tracks_example3 :
  process_tracks unit_length [single 0 5; single 1 8] 20 = Some [].
Proof. reflexivity. Qed.

Example process_tracks_ties :
  option_map (map item2)
    (process_tracks unit_length [single 0 30; single 1 40; single 2 30; single 3 40] 20)
  = Some [single 1 40; single 3 40; single 0 30; single 2 30].
Proof. reflexivity. Qed.

Example get_voxel_track_relations_example1 :
  get_voxel_track_relations example1 [single 10 3; single 0 6]
  = [TrackId 1; NoTrack; TrackId 0].
Proof. reflexivity. Qed.


(** ** Loops and sums *)

Lemma sum_acc (l : list Z) (a : Z) : fold_left Z.add l a = a + sum l.
Proof.
  unfold sum. revert a.
  induction l as [| x l IH]; intros a; simpl.
  - lia.
  - rewrite (IH (a + x)), (IH x). lia.
Qed.

Lemma sum_nil : sum [] = 0.
Proof. reflexivity. Qed.

Lemma sum_cons (x : Z) (l : list Z) : sum (x :: l) = x + sum l.
Proof. unfold sum at 1. simpl. apply sum_acc. Qed.

Lemma sum_app (l1 l2 : list Z) : sum (l1 ++ l2) = sum l1 + sum l2.
Proof.
  induction l1 as [| x l1 IH].
  - cbn [app]. rewrite sum_nil. lia.
  - simpl app. rewrite !sum_cons, IH. lia.
Qed.

(** ** [get_voxel_track_relations] *)

Lemma pos_eqb_eq (p q : position) : pos_eqb p q = true <-> p = q.
Proof.
  destruct p as [[px py] pz], q as [[qx qy] qz]. simpl.
  rewrite !andb_true_iff, !Z.eqb_eq.
  split.
  - intros [[-> ->] ->]. reflexivity.
  - intros H. injection H as -> -> ->. auto.
Qed.

Lemma scan_nodes_found vpos j ns f acc :
  (exists node, In node ns /\ node_pos node = vpos) ->
  scan_nodes vpos j ns (f, acc) = (true, acc ++ [TrackId j]).
Proof.
  induction ns as [| node ns IH]; intros [n [Hin Hpos]]; simpl in *.
  - contradiction.
  - destruct (pos_eqb vpos (node_pos node)) eqn:Heq; [reflexivity |].
    destruct Hin as [-> | Hin].
    + apply eq_sym, pos_eqb_eq in Hpos. congruence.
    + apply IH. exists n. auto.
Qed.

Lemma scan_nodes_missing vpos j ns st :
  ~ (exists node, In node ns /\ node_pos node = vpos) ->
  scan_nodes vpos j ns st = st.
Proof.
  induction ns as [| node ns IH]; intros Hno; simpl.
  - reflexivity.
  - destruct (pos_eqb vpos (node_pos node)) eqn:Heq.
    + exfalso. apply Hno. exists node. split; [now left |].
      symmetry. now apply pos_eqb_eq.
    + apply IH. intros [n [Hin Hpos]]. apply Hno. exists n. split; [now right | exact Hpos].
Qed.

Lemma contains_pos_dec (t : Graph) (p : position) :
  contains_pos t p \/ ~ contains_pos t p.
Proof.
  unfold contains_pos.
  induction (nodes t) as [| node ns IH].
  - right. intros [n [[] _]].
  - destruct (pos_eqb p (node_pos node)) eqn:Heq.
    + left. exists node. split; [now left |]. symmetry. now apply pos_eqb_eq.
    + destruct IH as [[n [Hin Hpos]] | Hno].
      * left. exists n. split; [now right | exact Hpos].
      * right. intros [n [[-> | Hin] Hpos]].
        -- apply eq_sym, pos_eqb_eq in Hpos. congruence.
        -- apply Hno. exists n. auto.
Qed.

(** The scan over the tracks stops at the first track holding the position. *)
Lemma scan_tracks_first vpos tracks : forall j0 acc k t,
  nth_error tracks k = Some t ->
  contains_pos t vpos ->
  (forall k' t', (k' < k)%nat -> nth_error tracks k' = Some t' -> ~ contains_pos t' vpos) ->
  scan_tracks vpos j0 tracks (false, acc) = (true, acc ++ [TrackId (j0 + k)]).
Proof.
  induction tracks as [| t0 tracks IH]; intros j0 acc k t Hnth Hc Hfirst.
  - destruct k; discriminate.
  - destruct k as [| k]; simpl in *.
    + injection Hnth as ->.
      rewrite (scan_nodes_found _ _ _ _ _ Hc). simpl.
      now rewrite Nat.add_0_r.
    + rewrite scan_nodes_missing by (apply (Hfirst 0%nat t0); [lia | reflexivity]).
      simpl. rewrite (IH (S j0) acc k t Hnth Hc).
      * f_equal. f_equal. f_equal. f_equal. lia.
      * intros k' t' Hlt Hn. apply (Hfirst (S k') t'); [lia | exact Hn].
Qed.

(** When no track holds the position, the scan leaves the list as it was. *)
Lemma scan_tracks_none vpos tracks : forall j0 acc,
  (forall t, In t tracks -> ~ contains_pos t vpos) ->
  scan_tracks vpos j0 tracks (false, acc) = (false, acc).
Proof.
  induction tracks as [| t0 tracks IH]; intros j0 acc Hno; simpl.
  - reflexivity.
  - rewrite scan_nodes_missing by (apply Hno; now left).
    simpl. apply IH. intros t Hin. apply Hno. now right.
Qed.

(** Some track holds the position, or none does; in the first case there is
    a first one. *)
Lemma first_track_or_none vpos tracks :
  (exists k t, nth_error tracks k = Some t /\ contains_pos t vpos /\
     forall k' t', (k' < k)%nat -> nth_error tracks k' = Some t' -> ~ contains_pos t' vpos)
  \/ (forall t, In t tracks -> ~ contains_pos t vpos).
Proof.
  induction tracks as [| t0 tracks IH].
  - right. intros t [].
  - destruct (contains_pos_dec t0 vpos) as [Hc | Hn].
    + left. exists 0%nat, t0. split; [reflexivity |]. split; [exact Hc |].
      intros k' t' Hlt. lia.
    + destruct IH as [[k [t [Hnth [Hc Hfirst]]]] | Hno].
      * left. exists (S k), t. split; [exact Hnth |]. split; [exact Hc |].
        intros [| k'] t' Hlt Hn'; simpl in Hn'.
        -- injection Hn' as <-. exact Hn.
        -- apply (Hfirst k' t'); [lia | exact Hn'].
      * right. intros t [<- | Hin]; [exact Hn | now apply Hno].
Qed.

(** Each voxel only appends to the list built so far. *)
Lemma relation_step_acc tracks acc row :
  relation_step tracks acc row = acc ++ relation_step tracks [] row.
Proof.
  destruct row as [i v]. unfold relation_step.
  destruct (negli v); simpl; [reflexivity |].
  destruct (first_track_or_none (voxel_pos v) tracks) as [[k [t [Hnth [Hc Hfirst]]]] | Hno].
  - rewrite !(scan_tracks_first _ _ _ _ k t Hnth Hc Hfirst). reflexivity.
  - rewrite !scan_tracks_none by exact Hno. simpl. now rewrite app_nil_r.
Qed.

Lemma relations_acc tracks rows : forall acc,
  fold_left (relation_step tracks) rows acc
  = acc ++ fold_left (relation_step tracks) rows [].
Proof.
  induction rows as [| row rows IH]; intros acc; simpl.
  - now rewrite app_nil_r.
  - rewrite (IH (relation_step tracks acc row)), (IH (relation_step tracks [] row)).
    rewrite (relation_step_acc tracks acc row). now rewrite app_assoc.
Qed.

Lemma relations_split tracks pre row post :
  get_voxel_track_relations (pre ++ row :: post) tracks
  = get_voxel_track_relations pre tracks ++ relation_step tracks [] row
    ++ get_voxel_track_relations post tracks.
Proof.
  unfold get_voxel_track_relations, iterrows.
  rewrite fold_left_app. simpl.
  rewrite relations_acc, relation_step_acc. now rewrite app_assoc.
Qed.

(** When every significant voxel lies in some track, each voxel adds one
    entry. *)
Lemma relations_length_when_matched (event_voxels : DataFrame) (event_tracks : list Graph) :
  (forall i v, In (i, v) event_voxels -> negli v = false ->
     exists t, In t event_tracks /\ contains_pos t (voxel_pos v)) ->
  length (get_voxel_track_relations event_voxels event_tracks) = length event_voxels.
Proof.
  induction event_voxels as [| [i v] df IH]; intros Hmatched.
  - reflexivity.
  - change ((i, v) :: df) with ([] ++ (i, v) :: df) at 1.
    rewrite (relations_split event_tracks [] (i, v) df).
    rewrite !length_app, IH
      by (intros i' v' Hin; apply (Hmatched i' v'); now right).
    simpl length. f_equal.
    unfold relation_step. destruct (negli v) eqn:Hv; [reflexivity |].
    simpl negb. cbv iota.
    destruct (first_track_or_none (voxel_pos v) event_tracks)
      as [[k [t [Hnth [Hc Hfirst]]]] | Hno].
    + now rewrite (scan_tracks_first _ _ 0%nat [] k t Hnth Hc Hfirst).
    + destruct (Hmatched i v (or_introl eq_refl) Hv) as [t [Hin Hc]].
      now destruct (Hno t Hin).
Qed.

(** C2, at a failing input: a significant voxel that lies in no track gets
    no entry at all.  With two significant voxels and one track holding only
    the second, the list has a single entry, and that entry (at position 0)
    is the answer for the voxel at position 1. *)
Theorem unmatched_voxel_gets_no_entry :
  let event_voxels := [ (0, mkVoxel 0 0 0 5 false); (1, mkVoxel 10 0 0 3 false) ] in
  let event_tracks := [ single 10 3 ] in
  get_voxel_track_relations event_voxels event_tracks = [TrackId 0]
  /\ length (get_voxel_track_relations event_voxels event_tracks)
     <> length event_voxels.
Proof.
  cbv zeta. split.
  - reflexivity.
  - vm_compute. discriminate.
Qed.

(** C7: in the list returned for a table [pre ++ (i, v) :: post], the part
    written while the voxel [v] is visited stands between the lists returned
    for [pre] and for [post].  For a negligible [v] that part is the single
    marker [NoTrack].  For a significant [v] that lies in some track it is
    the single index [j] of the first track, in the given order, with a node
    at exactly the position of [v]. *)
Theorem voxel_gets_first_matching_track :
  forall (pre post : DataFrame) (i : label) (v : Voxel) (event_tracks : list Graph),
    (negli v = true ->
     get_voxel_track_relations (pre ++ (i, v) :: post) event_tracks
     = get_voxel_track_relations pre event_tracks ++ [NoTrack]
       ++ get_voxel_track_relations post event_tracks)
    /\
    (negli v = false ->
     forall (j : nat) (t : Graph),
       nth_error event_tracks j = Some t ->
       contains_pos t (voxel_pos v) ->
       (forall j' t', (j' < j)%nat -> nth_error event_tracks j' = Some t' ->
                      ~ contains_pos t' (voxel_pos v)) ->
       get_voxel_track_relations (pre ++ (i, v) :: post) event_tracks
       = get_voxel_track_relations pre event_tracks ++ [TrackId j]
         ++ get_voxel_track_relations post event_tracks).
Proof.
  intros pre post i v tracks. split.
  - intros Hneg. rewrite relations_split. unfold relation_step.
    rewrite Hneg. reflexivity.
  - intros Hsig j t Hnth Hc Hfirst. rewrite relations_split. unfold relation_step.
    rewrite Hsig. simpl negb. cbv iota.
    rewrite (scan_tracks_first _ _ 0%nat [] j t Hnth Hc Hfirst). reflexivity.
Qed.

(** The theorem at the first example: voxel 2 lies in the second of three
    tracks and again in the third; it is given index 1. *)
Lemma voxel_gets_first_matching_track_witness :
  get_voxel_track_relations
    ([ (0, mkVoxel 0 0 0 6 false); (1, mkVoxel 1 0 0 0 true) ]
       ++ (2, mkVoxel 10 0 0 3 false) :: [])
    [ single 0 6; mkGraph [mkNode 4 0 0 1; mkNode 10 0 0 3] []; single 10 3 ]
  = get_voxel_track_relations
      [ (0, mkVoxel 0 0 0 6 false); (1, mkVoxel 1 0 0 0 true) ]
      [ single 0 6; mkGraph [mkNode 4 0 0 1; mkNode 10 0 0 3] []; single 10 3 ]
    ++ [TrackId 1]
    ++ get_voxel_track_relations []
      [ single 0 6; mkGraph [mkNode 4 0 0 1; mkNode 10 0 0 3] []; single 10 3 ].
Proof.
  apply (proj2 (voxel_gets_first_matching_track _ _ 2 (mkVoxel 10 0 0 3 false) _)
           eq_refl 1%nat (mkGraph [mkNode 4 0 0 1; mkNode 10 0 0 3] [])).
  - reflexivity.
  - exists (mkNode 10 0 0 3). split; [right; left; reflexivity | reflexivity].
  - intros j' t' Hlt Hnth.
    destruct j' as [| j']; [| lia].
    injection Hnth as <-.
    intros [node [[<- | []] Hpos]]. discriminate Hpos.
Defined.

(** ** [get_new_energies]: the table and its index *)

Lemma in_index_iff (l : label) (df : DataFrame) :
  in_index l df = true <-> In l (index df).
Proof.
  unfold in_index. rewrite existsb_exists. split.
  - intros [x [Hin Heq]]. apply Z.eqb_eq in Heq. now subst.
  - intros Hin. exists l. split; [exact Hin | apply Z.eqb_refl].
Qed.

Lemma select_negli_In (df : DataFrame) (i : label) (v : Voxel) :
  In (i, v) (select_negli df) <-> In (i, v) df /\ negli v = true.
Proof.
  unfold select_negli. rewrite filter_In. simpl.
  destruct (negli v); simpl; intuition congruence.
Qed.

Lemma In_index (df : DataFrame) (i : label) (v : Voxel) :
  In (i, v) df -> In i (index df).
Proof. intros H. unfold index. now apply (in_map fst) in H. Qed.

(** With unique labels, a label names one row. *)
Lemma unique_row (df : DataFrame) (i : label) (v v' : Voxel) :
  NoDup (index df) -> In (i, v) df -> In (i, v') df -> v = v'.
Proof.
  induction df as [| [l w] df IH]; simpl; intros Hnd Hv Hv'.
  - contradiction.
  - inversion Hnd as [| ? ? Hnotin Hnd']; subst.
    destruct Hv as [Hv | Hv], Hv' as [Hv' | Hv'].
    + congruence.
    + injection Hv as -> ->. apply In_index in Hv'. contradiction.
    + injection Hv' as -> ->. apply In_index in Hv. contradiction.
    + now apply IH.
Qed.

Lemma in_negl_index (df : DataFrame) (i : label) (v : Voxel) :
  NoDup (index df) -> In (i, v) df ->
  in_index i (select_negli df) = negli v.
Proof.
  intros Hnd Hin.
  destruct (negli v) eqn:Hv.
  - apply in_index_iff. apply (In_index _ i v). now apply select_negli_In.
  - destruct (in_index i (select_negli df)) eqn:Hidx; [| reflexivity].
    apply in_index_iff in Hidx. unfold index in Hidx.
    apply in_map_iff in Hidx. destruct Hidx as [[i' v'] [Heq Hin']].
    simpl in Heq. subst i'. apply select_negli_In in Hin'.
    destruct Hin' as [Hin' Hneg].
    rewrite (unique_row df i v v' Hnd Hin Hin') in Hv. congruence.
Qed.

Lemma loc_In (df : DataFrame) (i : label) (v : Voxel) :
  NoDup (index df) -> In (i, v) df -> loc df i = Some v.
Proof.
  induction df as [| [l w] df IH]; simpl; intros Hnd Hin.
  - contradiction.
  - inversion Hnd as [| ? ? Hnotin Hnd']; subst.
    destruct Hin as [Hin | Hin].
    + injection Hin as -> ->. now rewrite Z.eqb_refl.
    + destruct (i =? l) eqn:Heq.
      * apply Z.eqb_eq in Heq. subst. apply In_index in Hin. contradiction.
      * now apply IH.
Qed.

(** ** [get_new_energies]: the second loop *)

Lemma for_each_append {A B : Type} (body : list B -> A -> option (list B))
    (f : A -> B) (rows : list A) :
  (forall acc r, In r rows -> body acc r = Some (acc ++ [f r])) ->
  forall acc, for_each body rows acc = Some (acc ++ map f rows).
Proof.
  induction rows as [| r rows IH]; intros Hbody acc; simpl.
  - now rewrite app_nil_r.
  - rewrite Hbody by now left. simpl.
    rewrite IH by (intros acc' r' Hin; apply Hbody; now right).
    now rewrite <- app_assoc.
Qed.

(** The generator of lines 69-70 yields the energies of the negligible rows
    paired with [i], in row order. *)
Lemma extra_terms_rows (df : DataFrame) (f : label * Voxel -> label) (i : label)
    (rows : list (label * Voxel)) :
  NoDup (index df) -> incl rows df ->
  extra_terms df (map (fun r => (fst r, f r)) rows) i
  = Some (energies (filter (fun r => i =? f r) rows)).
Proof.
  intros Hnd. induction rows as [| [n vn] rows IH]; intros Hincl; simpl.
  - reflexivity.
  - assert (Hincl' : incl rows df) by (intros r Hr; apply Hincl; now right).
    destruct (i =? f (n, vn)) eqn:Heq.
    + rewrite (loc_In df n vn Hnd) by (apply Hincl; now left).
      simpl. rewrite (IH Hincl'). reflexivity.
    + apply (IH Hincl').
Qed.

Lemma select_negli_incl (df : DataFrame) : incl (select_negli df) df.
Proof. intros [i v] H. now apply select_negli_In in H. Qed.

Lemma extra_terms_pairs (df : DataFrame) (i : label) :
  NoDup (index df) ->
  extra_terms df (negl_neig_pairs df) i
  = Some (energies (filter (fun r => i =? target df r) (select_negli df))).
Proof.
  intros Hnd. unfold negl_neig_pairs, iterrows.
  apply (extra_terms_rows df (target df) i (select_negli df) Hnd).
  apply select_negli_incl.
Qed.

(** A label that is nobody's closest neighbour receives nothing. *)
Lemma routed_outside (df : DataFrame) (i : label) :
  existsb (Z.eqb i) (neig_index df) = false -> routed df i = 0.
Proof.
  intros Hex. unfold routed.
  replace (filter (fun r => i =? target df r) (select_negli df)) with (@nil (label * Voxel)).
  - reflexivity.
  - symmetry.
    unfold neig_index, negl_neig_pairs, iterrows in Hex.
    induction (select_negli df) as [| r rows IH]; simpl in *.
    + reflexivity.
    + apply orb_false_iff in Hex. destruct Hex as [H1 H2].
      unfold target at 1. rewrite H1. now apply IH.
Qed.

Lemma new_energy_step_row (df : DataFrame) (acc : list Z) (r : label * Voxel) :
  NoDup (index df) -> In r df ->
  new_energy_step df acc r = Some (acc ++ [new_energy df r]).
Proof.
  intros Hnd Hin. destruct r as [i v]. unfold new_energy_step, new_energy.
  rewrite (in_negl_index df i v Hnd Hin). simpl.
  destruct (negli v); [reflexivity |].
  destruct (existsb (Z.eqb i) (neig_index df)) eqn:Hex.
  - rewrite (extra_terms_pairs df i Hnd). reflexivity.
  - rewrite (routed_outside df i Hex). now rewrite Z.add_0_r.
Qed.

(** With unique labels the function returns, and row by row. *)
Lemma get_new_energies_rows (df : DataFrame) :
  NoDup (index df) -> get_new_energies df = Some (map (new_energy df) df).
Proof.
  intros Hnd. unfold get_new_energies, iterrows.
  apply (for_each_append (new_energy_step df) (new_energy df) df).
  intros acc r Hin. now apply new_energy_step_row.
Qed.

Lemma select_negli_none (df : DataFrame) :
  (forall i v, In (i, v) df -> negli v = false) -> select_negli df = [].
Proof.
  intros Hsig. unfold select_negli.
  induction df as [| [i v] df IH]; simpl.
  - reflexivity.
  - rewrite (Hsig i v) by now left. simpl.
    apply IH. intros i' v' Hin. apply (Hsig i' v'). now right.
Qed.

Lemma map_zero_repeat {A : Type} (l : list A) :
  map (fun _ => 0) l = repeat 0 (length l).
Proof. induction l as [| x l IH]; simpl; congruence. Qed.

Lemma sum_repeat_zero (n : nat) : sum (repeat 0 n) = 0.
Proof.
  induction n as [| n IH]; simpl.
  - reflexivity.
  - rewrite sum_cons, IH. reflexivity.
Qed.

(** C8: when no voxel of the table is negligible, the energies returned are
    the energies of the table, row by row. *)
Theorem all_significant_identity :
  forall event_voxels : DataFrame,
    (forall i v, In (i, v) event_voxels -> negli v = false) ->
    get_new_energies event_voxels = Some (energies event_voxels).
Proof.
  intros df Hsig. unfold get_new_energies, iterrows, energies.
  apply (for_each_append (new_energy_step df) (fun r => E (snd r)) df).
  intros acc [i v] Hin.
  unfold new_energy_step, neig_index, negl_neig_pairs, iterrows.
  rewrite (select_negli_none df Hsig). reflexivity.
Qed.

Lemma all_significant_identity_witness :
  get_new_energies [ (3, mkVoxel 0 0 0 5 false); (7, mkVoxel 2000 0 0 3 false) ]
  = Some [5; 3].
Proof.
  apply (all_significant_identity
           [ (3, mkVoxel 0 0 0 5 false); (7, mkVoxel 2000 0 0 3 false) ]).
  intros i v [H | [H | []]]; injection H as _ <-; reflexivity.
Defined.

(** C10: on a non-empty table whose voxels are all negligible the function
    returns (it raises nothing), and what it returns is one zero per row;
    the energy of the event is gone. *)
Theorem all_negligible_zeros :
  forall event_voxels : DataFrame,
    event_voxels <> [] ->
    (forall i v, In (i, v) event_voxels -> negli v = true) ->
    exists new_energies,
      get_new_energies event_voxels = Some new_energies
      /\ new_energies = repeat 0 (length event_voxels)
      /\ sum new_energies = 0.
Proof.
  intros df _ Hneg. exists (repeat 0 (length df)).
  split; [| split; [reflexivity | apply sum_repeat_zero]].
  rewrite <- map_zero_repeat. unfold get_new_energies, iterrows.
  apply (for_each_append (new_energy_step df) (fun _ => 0) df).
  intros acc [i v] Hin. unfold new_energy_step.
  replace (in_index i (select_negli df)) with true; [reflexivity |].
  symmetry. apply in_index_iff. apply (In_index _ i v).
  apply select_negli_In. split; [exact Hin | now apply (Hneg i v)].
Qed.

Lemma all_negligible_zeros_witness :
  exists new_energies,
    get_new_energies [ (0, mkVoxel 0 0 0 4 true); (1, mkVoxel 1 0 0 2 true) ]
    = Some new_energies
    /\ new_energies = repeat 0 2
    /\ sum new_energies = 0.
Proof.
  apply (all_negligible_zeros [ (0, mkVoxel 0 0 0 4 true); (1, mkVoxel 1 0 0 2 true) ]).
  - discriminate.
  - intros i v [H | [H | []]]; injection H as _ <-; reflexivity.
Defined.

(** ** [get_new_energies]: the search for the closest neighbour *)

Section ClosestSearch.

Variable negl_voxels : DataFrame.
Variable i : label.
Variable negl_voxel : Voxel.

(** What the inner loop has established when it leaves its rows: the
    minimum never grows, it is below every measured row, and the pair is
    either untouched or that of a measured row. *)
Lemma closest_fold (rows : list (label * Voxel)) :
  forall d0 c0 d c,
    fold_left (closest_step negl_voxels i negl_voxel) rows (d0, c0) = (d, c) ->
    dist_le d d0
    /\ (forall j ev, In (j, ev) rows -> measured negl_voxels i j = true ->
          dist_le d (distance negl_voxel ev))
    /\ ((d, c) = (d0, c0)
        \/ exists j ev, In (j, ev) rows /\ measured negl_voxels i j = true
                        /\ c = j /\ d = distance negl_voxel ev).
Proof.
  unfold dist_le.
  induction rows as [| [j ev] rows IH]; intros d0 c0 d c Hfold; simpl in Hfold.
  - injection Hfold as <- <-. split; [lia |]. split; [| now left].
    intros j ev [].
  - fold (measured negl_voxels i j) in Hfold.
    destruct (measured negl_voxels i j) eqn:Hm.
    + unfold dist_ltb in Hfold.
      destruct (radicand (distance negl_voxel ev) <? radicand d0) eqn:Hlt.
      * apply Z.ltb_lt in Hlt.
        destruct (IH _ _ _ _ Hfold) as [Hle [Hall Hwho]].
        split; [lia |]. split.
        -- intros j' ev' [Heq | Hin] Hm'.
           ++ injection Heq as <- <-. exact Hle.
           ++ now apply (Hall j' ev').
        -- right. destruct Hwho as [Heq | [j' [ev' [Hin [Hm' [Hc Hd]]]]]].
           ++ injection Heq as -> ->. exists j, ev. repeat split; auto. now left.
           ++ exists j', ev'. repeat split; auto. now right.
      * apply Z.ltb_ge in Hlt.
        destruct (IH _ _ _ _ Hfold) as [Hle [Hall Hwho]].
        split; [exact Hle |]. split.
        -- intros j' ev' [Heq | Hin] Hm'.
           ++ injection Heq as <- <-. lia.
           ++ now apply (Hall j' ev').
        -- destruct Hwho as [Heq | [j' [ev' [Hin [Hm' [Hc Hd]]]]]].
           ++ now left.
           ++ right. exists j', ev'. repeat split; auto. now right.
    + destruct (IH _ _ _ _ Hfold) as [Hle [Hall Hwho]].
      split; [exact Hle |]. split.
      * intros j' ev' [Heq | Hin] Hm'.
        -- injection Heq as <- <-. congruence.
        -- now apply (Hall j' ev').
      * destruct Hwho as [Heq | [j' [ev' [Hin [Hm' [Hc Hd]]]]]].
        -- now left.
        -- right. exists j', ev'. repeat split; auto. now right.
Qed.

End ClosestSearch.

(** With unique labels, the rows measured for a negligible voxel are the
    significant rows. *)
Lemma measured_significant (df : DataFrame) (i j : label) (vn ev : Voxel) :
  NoDup (index df) ->
  In (i, vn) df -> negli vn = true -> In (j, ev) df ->
  measured (select_negli df) i j = negb (negli ev).
Proof.
  intros Hnd Hi Hneg Hj. unfold measured.
  rewrite (in_negl_index df j ev Hnd Hj).
  destruct (negli ev) eqn:Hev; simpl.
  - apply andb_false_r.
  - rewrite andb_true_r. apply negb_true_iff, Z.eqb_neq. intros ->.
    rewrite (unique_row df j vn ev Hnd Hi Hj) in Hneg. congruence.
Qed.

(** A negligible voxel with a significant voxel within reach is paired with
    a significant voxel of the table, and no significant voxel of the table
    is closer to it. *)
Lemma closest_index_nearest (df : DataFrame) (i : label) (vn : Voxel) :
  NoDup (index df) ->
  In (i, vn) df -> negli vn = true ->
  (exists j vj, In (j, vj) df /\ negli vj = false /\ within_reach vn vj) ->
  exists vt,
    In (closest_index df i vn, vt) df /\ negli vt = false
    /\ forall j vj, In (j, vj) df -> negli vj = false ->
         dist_le (distance vn vt) (distance vn vj).
Proof.
  intros Hnd Hi Hneg [j0 [v0 [Hj0 [Hsig0 Hreach]]]].
  unfold closest_index, closest_search, iterrows.
  destruct (fold_left (closest_step (select_negli df) i vn) df (dist_of_int 1000, i))
    as [d c] eqn:Hfold.
  destruct (closest_fold _ _ _ _ _ _ _ _ Hfold) as [Hle [Hall Hwho]].
  simpl.
  assert (Hm0 : measured (select_negli df) i j0 = true).
  { rewrite (measured_significant df i j0 vn v0 Hnd Hi Hneg Hj0), Hsig0. reflexivity. }
  destruct Hwho as [Heq | [j [ev [Hin [Hm [Hc Hd]]]]]].
  - exfalso. injection Heq as -> _.
    specialize (Hall j0 v0 Hj0 Hm0).
    unfold within_reach, dist_ltb in Hreach. apply Z.ltb_lt in Hreach.
    unfold dist_le in Hall. lia.
  - subst c d. exists ev.
    rewrite (measured_significant df i j vn ev Hnd Hi Hneg Hin) in Hm.
    apply negb_true_iff in Hm.
    split; [exact Hin |]. split; [exact Hm |].
    intros j' vj Hj' Hsig'. apply (Hall j' vj Hj').
    rewrite (measured_significant df i j' vn vj Hnd Hi Hneg Hj'), Hsig'. reflexivity.
Qed.

(** ** [get_new_energies]: where the energy goes *)

Lemma sum_map_add {A : Type} (f g : A -> Z) (l : list A) :
  sum (map (fun x => f x + g x) l) = sum (map f l) + sum (map g l).
Proof.
  induction l as [| x l IH]; simpl.
  - reflexivity.
  - rewrite !sum_cons, IH. lia.
Qed.

Lemma sum_map_ext {A : Type} (f g : A -> Z) (l : list A) :
  (forall x, In x l -> f x = g x) -> sum (map f l) = sum (map g l).
Proof.
  intros H. f_equal. apply map_ext_in. exact H.
Qed.

Lemma sum_off_label (df : DataFrame) (l : label) (e : Z) :
  ~ In l (index df) ->
  sum (map (fun s => if negli (snd s) then 0 else if fst s =? l then e else 0) df) = 0.
Proof.
  induction df as [| [l2 w2] df IH]; intros Hnotin.
  - reflexivity.
  - simpl map. rewrite sum_cons. simpl fst. simpl snd.
    unfold index in Hnotin, IH. simpl in Hnotin.
    rewrite IH by tauto.
    destruct (negli w2); [reflexivity |].
    destruct (l2 =? l) eqn:H2; [| reflexivity].
    apply Z.eqb_eq in H2. tauto.
Qed.

(** The significant rows labelled [l] hold the amount [e] once when [l] is
    the label of a significant row, and unique labels make it exactly once. *)
Lemma sum_at_label (df : DataFrame) (l : label) (e : Z) :
  NoDup (index df) ->
  (exists vt, In (l, vt) df /\ negli vt = false) ->
  sum (map (fun s => if negli (snd s) then 0 else if fst s =? l then e else 0) df) = e.
Proof.
  induction df as [| [l' w] df IH]; intros Hnd [vt [Hin Hsig]].
  - contradiction.
  - inversion Hnd as [| ? ? Hnotin Hnd']; subst.
    simpl map. rewrite sum_cons. simpl fst. simpl snd.
    destruct Hin as [Heq | Hin].
    + injection Heq as -> ->. rewrite Hsig, Z.eqb_refl.
      rewrite (sum_off_label df l e Hnotin). lia.
    + rewrite IH by (try assumption; exists vt; auto).
      destruct (negli w); [lia |].
      destruct (l' =? l) eqn:H2; [| lia].
      apply Z.eqb_eq in H2. subst. apply In_index in Hin. contradiction.
Qed.

(** No double counting: when every row of [rows] is paired with a
    significant row of the table, what the significant rows receive adds up
    to the energy of [rows]. *)
Lemma routed_total (df : DataFrame) (tgt : label * Voxel -> label)
    (rows : list (label * Voxel)) :
  NoDup (index df) ->
  (forall r, In r rows -> exists vt, In (tgt r, vt) df /\ negli vt = false) ->
  sum (map (fun s => if negli (snd s) then 0
                     else sum (energies (filter (fun r => fst s =? tgt r) rows))) df)
  = sum (energies rows).
Proof.
  intros Hnd. induction rows as [| r rows IH]; intros Htgt.
  - clear Hnd Htgt. simpl filter. unfold energies. simpl map at 2 3. rewrite sum_nil.
    induction df as [| [l w] df IHdf].
    + reflexivity.
    + simpl map. rewrite sum_cons, IHdf.
      destruct (negli w); reflexivity.
  - unfold energies at 2. simpl map. rewrite sum_cons. fold (energies rows).
    rewrite <- IH by (intros r' Hr'; apply Htgt; now right).
    rewrite <- (sum_at_label df (tgt r) (E (snd r)) Hnd) at 1 by (apply Htgt; now left).
    rewrite <- sum_map_add. apply sum_map_ext. intros [l w] _. cbn [fst snd].
    destruct (negli w); [reflexivity |].
    simpl filter. destruct (l =? tgt r).
    + unfold energies. simpl map. now rewrite sum_cons.
    + lia.
Qed.

(** The energy of a table is that of its significant rows plus that of its
    negligible rows. *)
Lemma energies_partition (df : DataFrame) :
  sum (energies df)
  = sum (map (fun s => if negli (snd s) then 0 else E (snd s)) df)
    + sum (energies (select_negli df)).
Proof.
  unfold energies, select_negli.
  induction df as [| [i v] df IH]; simpl.
  - reflexivity.
  - rewrite !sum_cons, IH.
    destruct (negli v); simpl; [rewrite sum_cons |]; lia.
Qed.

(** Conservation, for the rows as the second loop computes them. *)
Lemma new_energy_total (df : DataFrame) :
  NoDup (index df) -> all_within_reach df ->
  sum (map (new_energy df) df) = sum (energies df).
Proof.
  intros Hnd Hreach.
  rewrite energies_partition.
  rewrite <- (routed_total df (target df) (select_negli df) Hnd).
  - rewrite <- sum_map_add. apply sum_map_ext. intros s _.
    unfold new_energy, routed. destruct s as [l w]. cbn [fst snd].
    destruct (negli w); reflexivity.
  - intros [n vn] Hin. apply select_negli_In in Hin. destruct Hin as [Hin Hneg].
    destruct (closest_index_nearest df n vn Hnd Hin Hneg (Hreach n vn Hin Hneg))
      as [vt [Hvt [Hsig _]]].
    exists vt. split; assumption.
Qed.

Lemma unique_position (df : DataFrame) (k k' : nat) (r r' : label * Voxel) :
  NoDup (index df) ->
  nth_error df k = Some r -> nth_error df k' = Some r' -> fst r = fst r' -> k = k'.
Proof.
  intros Hnd Hk Hk' Heq.
  apply (proj1 (NoDup_nth_error (index df)) Hnd).
  - unfold index. rewrite length_map. apply nth_error_Some. congruence.
  - unfold index.
    rewrite (map_nth_error fst k df Hk), (map_nth_error fst k' df Hk').
    now rewrite Heq.
Qed.

Lemma negligible_rows_filter (df : DataFrame) (tgt : label * Voxel -> label) (j : label) :
  filter (fun r => j =? tgt r) (select_negli df)
  = filter (fun r => negli (snd r) && (tgt r =? j)) df.
Proof.
  unfold select_negli.
  induction df as [| [n vn] df IH]; simpl.
  - reflexivity.
  - rewrite (Z.eqb_sym (tgt (n, vn)) j).
    destruct (negli vn); simpl; rewrite IH; reflexivity.
Qed.


(** Conservation when sums are exact: on a table with unique labels in
    which every negligible voxel has a significant voxel closer than 1000,
    the exact sum of the returned energies is the exact sum of the energies
    of the table.  The statement for float64 sums is
    [energy_conserved_binary64]. *)
Theorem energy_conserved_within_reach :
  forall event_voxels : DataFrame,
    NoDup (index event_voxels) ->
    all_within_reach event_voxels ->
    exists new_energies,
      get_new_energies event_voxels = Some new_energies
      /\ sum new_energies = sum (energies event_voxels).
Proof.
  intros df Hnd Hreach. exists (map (new_energy df) df). split.
  - now apply get_new_energies_rows.
  - now apply new_energy_total.
Qed.

Lemma example1_unique_labels : NoDup (index example1).
Proof.
  unfold index. simpl. repeat constructor; simpl; intuition discriminate.
Qed.

Lemma example1_within_reach : all_within_reach example1.
Proof.
  intros n vn Hin Hneg. exists 0, (mkVoxel 0 0 0 5 false).
  split; [now left |]. split; [reflexivity |].
  destruct Hin as [H | [H | [H | []]]]; injection H as <- <-;
    solve [discriminate Hneg | reflexivity].
Qed.

Lemma energy_conserved_within_reach_witness :
  exists new_energies,
    get_new_energies example1 = Some new_energies
    /\ sum new_energies = sum (energies example1).
Proof.
  apply (energy_conserved_within_reach example1).
  - exact example1_unique_labels.
  - exact example1_within_reach.
Defined.

(** C3, at a failing input: the negligible voxel 1 has a significant voxel,
    voxel 0, at distance 1200.  The search starts from [min_dist = 1000],
    never accepts voxel 0, and leaves voxel 1 paired with itself; its energy
    reaches no significant voxel. *)
Theorem far_voxel_is_not_routed :
  negl_neig_pairs far_voxels = [(1, 1)]
  /\ get_new_energies far_voxels = Some [5; 0]
  /\ (exists j vj, In (j, vj) far_voxels /\ negli vj = false)
  /\ ~ (exists vt, In (closest_index far_voxels 1 (mkVoxel 1200 0 0 1 true), vt) far_voxels
                   /\ negli vt = false).
Proof.
  split; [reflexivity |]. split; [reflexivity |]. split.
  - exists 0, (mkVoxel 0 0 0 5 false). split; [now left | reflexivity].
  - intros [vt [[H | [H | []]] Hsig]].
    + discriminate H.
    + injection H as <-. discriminate Hsig.
Qed.

(** C4, refuted as stated: with a single voxel, negligible, no returned list
    accounts for that voxel's energy, since no significant voxel exists to
    take it. *)
Lemma lone_negligible_is_not_routed :
  ~ (exists new_energies,
       get_new_energies lone_negligible = Some new_energies
       /\ routes_once lone_negligible new_energies).
Proof.
  intros [out [_ [_ [tgt [Hroute _]]]]].
  destruct (Hroute (0, mkVoxel 0 0 0 1 true)) as [k [vt [Hk [Hsig _]]]].
  - now left.
  - reflexivity.
  - destruct k as [| k]; simpl in Hk.
    + injection Hk as _ <-. discriminate Hsig.
    + destruct k; discriminate Hk.
Qed.

(** C4, amended: on a table with unique labels in which every negligible
    voxel has a significant voxel closer than 1000, every negligible voxel
    comes back with energy 0, and its original energy is added to exactly
    one significant voxel. *)
Theorem negligible_energy_routed_once :
  forall event_voxels : DataFrame,
    NoDup (index event_voxels) ->
    all_within_reach event_voxels ->
    exists new_energies,
      get_new_energies event_voxels = Some new_energies
      /\ routes_once event_voxels new_energies.
Proof.
  intros df Hnd Hreach. exists (map (new_energy df) df).
  split; [now apply get_new_energies_rows |].
  split; [| exists (target df); split].
  - intros k i v Hk Hneg.
    rewrite (map_nth_error (new_energy df) k df Hk).
    unfold new_energy. simpl. now rewrite Hneg.
  - intros [n vn] Hin Hneg. simpl in Hneg.
    destruct (closest_index_nearest df n vn Hnd Hin Hneg (Hreach n vn Hin Hneg))
      as [vt [Hvt [Hsig _]]].
    destruct (In_nth_error df _ Hvt) as [k Hk].
    exists k, vt. split; [exact Hk |]. split; [exact Hsig |].
    intros k' r' Hk' Hlab.
    apply (unique_position df k' k r' _ Hnd Hk' Hk). exact Hlab.
  - intros k j vj Hk Hsig.
    rewrite (map_nth_error (new_energy df) k df Hk).
    unfold new_energy, routed. simpl. rewrite Hsig.
    now rewrite negligible_rows_filter.
Qed.

Lemma negligible_energy_routed_once_witness :
  exists new_energies,
    get_new_energies example1 = Some new_energies
    /\ routes_once example1 new_energies.
Proof.
  apply (negligible_energy_routed_once example1).
  - exact example1_unique_labels.
  - exact example1_within_reach.
Defined.

(** ** The builtin [sorted] *)

Section SortedByKey.

Context {A : Type}.
Variable key : A -> Z.
Variable reverse : bool.

Lemma sorted_insert_perm (x : A) (l : list A) :
  Permutation (sorted_insert key reverse x l) (x :: l).
Proof.
  induction l as [| y l IH]; simpl.
  - apply Permutation_refl.
  - destruct (goes_before key reverse x y).
    + apply Permutation_refl.
    + apply perm_trans with (y :: x :: l).
      * now apply perm_skip.
      * apply perm_swap.
Qed.

Lemma sorted_perm (l : list A) : Permutation (sorted key reverse l) l.
Proof.
  induction l as [| x l IH]; simpl.
  - apply perm_nil.
  - apply perm_trans with (x :: sorted key reverse l).
    + apply sorted_insert_perm.
    + now apply perm_skip.
Qed.

(** Stability.  Inserting [x] leaves the elements of any one key in their
    order, with [x] in front of those of its own key. *)
Lemma sorted_insert_stable (e : Z) (x : A) (l : list A) :
  filter (fun a => key a =? e) (sorted_insert key reverse x l)
  = filter (fun a => key a =? e) (x :: l).
Proof.
  induction l as [| y l IH].
  - reflexivity.
  - simpl sorted_insert.
    destruct (goes_before key reverse x y) eqn:Hgo; [reflexivity |].
    simpl filter in *. rewrite IH.
    destruct (key x =? e) eqn:Hx, (key y =? e) eqn:Hy; try reflexivity.
    apply Z.eqb_eq in Hx, Hy. unfold goes_before in Hgo.
    destruct reverse; apply Z.leb_gt in Hgo; lia.
Qed.

Lemma sorted_stable (e : Z) (l : list A) :
  filter (fun a => key a =? e) (sorted key reverse l)
  = filter (fun a => key a =? e) l.
Proof.
  induction l as [| x l IH].
  - reflexivity.
  - simpl sorted. rewrite sorted_insert_stable. simpl. now rewrite IH.
Qed.

End SortedByKey.

(** With [reverse=True] the keys do not increase along the result. *)
Lemma sorted_insert_descending {A : Type} (key : A -> Z) (x : A) (l : list A) :
  StronglySorted (fun a b => key b <= key a) l ->
  StronglySorted (fun a b => key b <= key a) (sorted_insert key true x l).
Proof.
  induction l as [| y l IH]; intros Hs; simpl.
  - constructor; constructor.
  - destruct (key y <=? key x) eqn:Hle.
    + apply Z.leb_le in Hle. constructor; [exact Hs |].
      constructor; [exact Hle |].
      apply StronglySorted_inv in Hs. destruct Hs as [_ Hall].
      eapply Forall_impl; [| exact Hall]. simpl. intros a Ha. lia.
    + apply Z.leb_gt in Hle.
      apply StronglySorted_inv in Hs. destruct Hs as [Hs Hall].
      constructor; [now apply IH |].
      apply (Permutation_Forall (Permutation_sym (sorted_insert_perm key true x l))).
      constructor; [lia | exact Hall].
Qed.

Lemma sorted_descending {A : Type} (key : A -> Z) (l : list A) :
  StronglySorted (fun a b => key b <= key a) (sorted key true l).
Proof.
  induction l as [| x l IH]; simpl.
  - constructor.
  - now apply sorted_insert_descending.
Qed.

(** ** [process_tracks] *)

Section ProcessTracks.

Variable track_length : Graph -> option Z.
Variable track_Eth : Z.

(** The loop of lines 144-156 keeps, in order, the tracks whose energy
    reaches the threshold; it returns as soon as [track_length] returns
    on each of them. *)
Lemma score_loop (event_tracks : list Graph) :
  (forall t, In t event_tracks -> track_Eth <= track_energy t ->
             track_length t <> None) ->
  forall acc, exists scored,
    for_each (score_step track_length track_Eth) event_tracks acc
    = Some (acc ++ scored)
    /\ map item2 scored
       = filter (fun t => track_energy t >=? track_Eth) event_tracks
    /\ Forall (fun s => item0 s = track_energy (item2 s)) scored.
Proof.
  induction event_tracks as [| t tracks IH]; intros Hlen acc.
  - exists []. simpl. rewrite app_nil_r. repeat split. constructor.
  - assert (Hlen' : forall t', In t' tracks -> track_Eth <= track_energy t' ->
                               track_length t' <> None)
      by (intros t' Hin; apply Hlen; now right).
    simpl. unfold score_step at 1.
    destruct (track_energy t >=? track_Eth) eqn:Hge.
    + apply Z.geb_le in Hge.
      destruct (track_length t) as [l |] eqn:Hl;
        [| exfalso; apply (Hlen t); [now left | exact Hge | exact Hl]].
      simpl.
      destruct (IH Hlen' (acc ++ [(track_energy t, l, t)])) as [scored [Hrun [Hmap Hall]]].
      exists ((track_energy t, l, t) :: scored).
      rewrite Hrun, <- app_assoc. simpl. rewrite Hmap.
      repeat split. constructor; [reflexivity | exact Hall].
    + simpl. apply (IH Hlen' acc).
Qed.

(** Below the threshold everywhere, the loop keeps nothing and calls
    nothing. *)
Lemma score_loop_none (event_tracks : list Graph) :
  (forall t, In t event_tracks -> track_energy t < track_Eth) ->
  forall acc,
    for_each (score_step track_length track_Eth) event_tracks acc = Some acc.
Proof.
  induction event_tracks as [| t tracks IH]; intros Hlow acc; simpl.
  - reflexivity.
  - unfold score_step at 1.
    replace (track_energy t >=? track_Eth) with false.
    + simpl. apply IH. intros t' Hin. apply Hlow. now right.
    + symmetry. rewrite Z.geb_leb. apply Z.leb_gt. apply Hlow. now left.
Qed.

End ProcessTracks.

Lemma map_filter_comm {A B : Type} (f : A -> B) (p : B -> bool) (l : list A) :
  map f (filter (fun a => p (f a)) l) = filter p (map f l).
Proof.
  induction l as [| a l IH]; simpl.
  - reflexivity.
  - destruct (p (f a)); simpl; now rewrite IH.
Qed.

(** C5: when [track_length] returns on the tracks that reach the threshold,
    [process_tracks] returns; every track of the result is a track of the
    input whose energy, the sum of the energies of its voxels, is at least
    the threshold, and every track of the input that is missing from the
    result has an energy strictly below the threshold. *)
Theorem process_tracks_threshold :
  forall (track_length : Graph -> option Z) (event_tracks : list Graph) (track_Eth : Z),
    (forall t, In t event_tracks -> track_Eth <= track_energy t ->
               track_length t <> None) ->
    exists result,
      process_tracks track_length event_tracks track_Eth = Some result
      /\ (forall s, In s result ->
            In (item2 s) event_tracks
            /\ item0 s = track_energy (item2 s)
            /\ track_Eth <= track_energy (item2 s))
      /\ (forall t, In t event_tracks -> ~ In t (map item2 result) ->
            track_energy t < track_Eth).
Proof.
  intros tl tracks th Hlen.
  destruct (score_loop tl th tracks Hlen []) as [scored [Hrun [Hmap Hall]]].
  exists (sorted item0 true scored).
  unfold process_tracks. rewrite Hrun. simpl.
  split; [reflexivity |].
  pose proof (sorted_perm item0 true scored) as Hperm.
  split.
  - intros s Hin.
    apply (Permutation_in _ Hperm) in Hin.
    assert (Hkept : In (item2 s) (filter (fun t => track_energy t >=? th) tracks))
      by (rewrite <- Hmap; now apply in_map).
    apply filter_In in Hkept. destruct Hkept as [Hin' Hge].
    apply Z.geb_le in Hge.
    rewrite Forall_forall in Hall.
    split; [exact Hin' |]. split; [now apply Hall | exact Hge].
  - intros t Hin Hout.
    destruct (Z_lt_ge_dec (track_energy t) th) as [Hlt | Hge]; [exact Hlt |].
    exfalso. apply Hout.
    apply (Permutation_in _ (Permutation_map item2 (Permutation_sym Hperm))).
    rewrite Hmap. apply filter_In. split; [exact Hin |].
    apply Z.geb_le. lia.
Qed.

Lemma process_tracks_threshold_witness :
  exists result,
    process_tracks unit_length [single 0 50; single 1 10; single 2 80] 20 = Some result
    /\ (forall s, In s result ->
          In (item2 s) [single 0 50; single 1 10; single 2 80]
          /\ item0 s = track_energy (item2 s)
          /\ 20 <= track_energy (item2 s))
    /\ (forall t, In t [single 0 50; single 1 10; single 2 80] ->
          ~ In t (map item2 result) -> track_energy t < 20).
Proof.
  apply (process_tracks_threshold unit_length [single 0 50; single 1 10; single 2 80] 20).
  intros t _ _. discriminate.
Defined.

(** C6: when [track_length] returns on the tracks that reach the threshold,
    [process_tracks] returns a sequence along which the track energy never
    increases, and in which the tracks of any one energy stand in the order
    they have in the input. *)
Theorem process_tracks_sorted_stable :
  forall (track_length : Graph -> option Z) (event_tracks : list Graph) (track_Eth : Z),
    (forall t, In t event_tracks -> track_Eth <= track_energy t ->
               track_length t <> None) ->
    exists result,
      process_tracks track_length event_tracks track_Eth = Some result
      /\ StronglySorted
           (fun a b => track_energy (item2 b) <= track_energy (item2 a)) result
      /\ forall e : Z,
           filter (fun t => track_energy t =? e) (map item2 result)
           = filter (fun t => track_energy t =? e)
               (filter (fun t => track_energy t >=? track_Eth) event_tracks).
Proof.
  intros tl tracks th Hlen.
  destruct (score_loop tl th tracks Hlen []) as [scored [Hrun [Hmap Hall]]].
  exists (sorted item0 true scored).
  unfold process_tracks. rewrite Hrun. simpl.
  split; [reflexivity |].
  pose proof (sorted_perm item0 true scored) as Hperm.
  assert (Hkey : forall s, In s (sorted item0 true scored) ->
                           item0 s = track_energy (item2 s)).
  { intros s Hin. rewrite Forall_forall in Hall. apply Hall.
    now apply (Permutation_in _ Hperm). }
  split.
  - pose proof (sorted_descending item0 scored) as Hsorted.
    revert Hkey Hsorted. generalize (sorted item0 true scored) as out.
    induction out as [| s out IH]; intros Hkey Hsorted.
    + constructor.
    + apply StronglySorted_inv in Hsorted. destruct Hsorted as [Hsorted Hhead].
      constructor.
      * apply IH; [| exact Hsorted]. intros s' Hin. apply Hkey. now right.
      * rewrite Forall_forall in Hhead |- *. intros b Hb.
        rewrite <- (Hkey s) by now left.
        rewrite <- (Hkey b) by now right.
        now apply Hhead.
  - intros e.
    rewrite <- (map_filter_comm item2 (fun t => track_energy t =? e)).
    rewrite (filter_ext_in (fun s => track_energy (item2 s) =? e)
                           (fun s => item0 s =? e)
                           (sorted item0 true scored))
      by (intros s Hin; now rewrite (Hkey s Hin)).
    rewrite sorted_stable.
    rewrite (filter_ext_in (fun s => item0 s =? e)
                           (fun s => track_energy (item2 s) =? e) scored)
      by (intros s Hin; rewrite Forall_forall in Hall; now rewrite (Hall s Hin)).
    rewrite (map_filter_comm item2 (fun t => track_energy t =? e)).
    now rewrite Hmap.
Qed.

Lemma process_tracks_sorted_stable_witness :
  exists result,
    process_tracks unit_length
      [single 0 30; single 1 40; single 2 30; single 3 40; single 4 7] 20
    = Some result
    /\ StronglySorted
         (fun a b => track_energy (item2 b) <= track_energy (item2 a)) result
    /\ forall e : Z,
         filter (fun t => track_energy t =? e) (map item2 result)
         = filter (fun t => track_energy t =? e)
             (filter (fun t => track_energy t >=? 20)
                [single 0 30; single 1 40; single 2 30; single 3 40; single 4 7]).
Proof.
  apply (process_tracks_sorted_stable unit_length
           [single 0 30; single 1 40; single 2 30; single 3 40; single 4 7] 20).
  intros t _ _. discriminate.
Defined.

(** C9: when no track reaches the threshold, [process_tracks] returns the
    empty sequence; it raises nothing, whatever [track_length] would do. *)
Theorem process_tracks_none_above_threshold :
  forall (track_length : Graph -> option Z) (event_tracks : list Graph) (track_Eth : Z),
    (forall t, In t event_tracks -> track_energy t < track_Eth) ->
    process_tracks track_length event_tracks track_Eth = Some [].
Proof.
  intros tl tracks th Hlow. unfold process_tracks.
  rewrite (score_loop_none tl th tracks Hlow []). reflexivity.
Qed.

Lemma process_tracks_none_above_threshold_witness :
  process_tracks no_length [single 0 5; single 1 8] 20 = Some [].
Proof.
  apply (process_tracks_none_above_threshold no_length [single 0 5; single 1 8] 20).
  intros t [<- | [<- | []]]; reflexivity.
Defined.

(** * Further properties *)

(** ** [get_new_energies] *)

Lemma reachable_sound (df : DataFrame) (vn : Voxel) :
  reachable df vn = true ->
  exists j vj, In (j, vj) df /\ negli vj = false /\ within_reach vn vj.
Proof.
  intros Hreach. unfold reachable in Hreach. apply existsb_exists in Hreach.
  destruct Hreach as [[j vj] [Hj Hok]]. simpl in Hok.
  apply andb_true_iff in Hok. destruct Hok as [Hsig Hlt].
  exists j, vj. split; [exact Hj |]. split; [now apply negb_true_iff | exact Hlt].
Qed.

(** With unique labels the function never raises: it returns one energy per
    row, and 0 for every negligible row, whatever the distances are. *)
Theorem get_new_energies_returns :
  forall event_voxels : DataFrame,
    NoDup (index event_voxels) ->
    exists new_energies,
      get_new_energies event_voxels = Some new_energies
      /\ length new_energies = length event_voxels
      /\ forall k i v, nth_error event_voxels k = Some (i, v) -> negli v = true ->
                       nth_error new_energies k = Some 0.
Proof.
  intros df Hnd. exists (map (new_energy df) df).
  split; [now apply get_new_energies_rows |].
  split; [apply length_map |].
  intros k i v Hk Hneg.
  rewrite (map_nth_error (new_energy df) k df Hk).
  unfold new_energy. simpl. now rewrite Hneg.
Qed.

Lemma far_voxels_unique_labels : NoDup (index far_voxels).
Proof.
  unfold index. simpl. repeat constructor; simpl; intuition discriminate.
Qed.

Lemma get_new_energies_returns_witness :
  exists new_energies,
    get_new_energies far_voxels = Some new_energies
    /\ length new_energies = length far_voxels
    /\ forall k i v, nth_error far_voxels k = Some (i, v) -> negli v = true ->
                     nth_error new_energies k = Some 0.
Proof.
  apply (get_new_energies_returns far_voxels). exact far_voxels_unique_labels.
Defined.

(** A negligible voxel with a significant voxel within reach is paired with
    a significant voxel of the table, and no significant voxel of the table
    is closer to it than that one. *)
Theorem paired_voxel_is_nearest :
  forall (event_voxels : DataFrame) (i : label) (negl_voxel : Voxel),
    NoDup (index event_voxels) ->
    In (i, negl_voxel) event_voxels -> negli negl_voxel = true ->
    reachable event_voxels negl_voxel = true ->
    exists vt,
      In (closest_index event_voxels i negl_voxel, vt) event_voxels
      /\ negli vt = false
      /\ forall j vj, In (j, vj) event_voxels -> negli vj = false ->
           dist_le (distance negl_voxel vt) (distance negl_voxel vj).
Proof.
  intros df i vn Hnd Hin Hneg Hreach.
  apply (closest_index_nearest df i vn Hnd Hin Hneg).
  now apply reachable_sound.
Qed.

Lemma paired_voxel_is_nearest_witness :
  exists vt,
    In (closest_index example1 1 (mkVoxel 1 0 0 1 true), vt) example1
    /\ negli vt = false
    /\ forall j vj, In (j, vj) example1 -> negli vj = false ->
         dist_le (distance (mkVoxel 1 0 0 1 true) vt)
                 (distance (mkVoxel 1 0 0 1 true) vj).
Proof.
  apply (paired_voxel_is_nearest example1 1 (mkVoxel 1 0 0 1 true)).
  - exact example1_unique_labels.
  - right. left. reflexivity.
  - reflexivity.
  - reflexivity.
Defined.

(** The inner loop replaces its pair only by a strictly closer row: when the
    pair has changed, the rows split around the chosen one, which is
    strictly closer than the initial minimum and than every measured row
    before it. *)
Lemma closest_fold_first (negl_voxels : DataFrame) (i : label) (negl_voxel : Voxel)
    (rows : list (label * Voxel)) :
  forall d0 c0 d c,
    fold_left (closest_step negl_voxels i negl_voxel) rows (d0, c0) = (d, c) ->
    (d, c) = (d0, c0)
    \/ exists pre ev post,
         rows = pre ++ (c, ev) :: post
         /\ measured negl_voxels i c = true
         /\ d = distance negl_voxel ev
         /\ dist_lt d d0
         /\ forall j' ev', In (j', ev') pre -> measured negl_voxels i j' = true ->
              dist_lt d (distance negl_voxel ev').
Proof.
  unfold dist_lt.
  induction rows as [| [j ev] rows IH]; intros d0 c0 d c Hfold; simpl in Hfold.
  - left. now symmetry.
  - fold (measured negl_voxels i j) in Hfold.
    destruct (measured negl_voxels i j) eqn:Hm.
    + unfold dist_ltb in Hfold.
      destruct (radicand (distance negl_voxel ev) <? radicand d0) eqn:Hlt.
      * apply Z.ltb_lt in Hlt. right.
        destruct (IH _ _ _ _ Hfold) as [Heq | [pre [ev' [post [Hrows [Hm' [Hd [Hlt' Hpre]]]]]]]].
        -- injection Heq as -> ->. exists [], ev, rows.
           repeat split; auto. intros j' ev' [].
        -- exists ((j, ev) :: pre), ev', post. subst rows.
           repeat split; auto; [lia |].
           intros j' e' [Heq | Hin] Hmj.
           ++ injection Heq as <- <-. exact Hlt'.
           ++ now apply (Hpre j' e').
      * apply Z.ltb_ge in Hlt.
        destruct (IH _ _ _ _ Hfold) as [Heq | [pre [ev' [post [Hrows [Hm' [Hd [Hlt' Hpre]]]]]]]].
        -- now left.
        -- right. exists ((j, ev) :: pre), ev', post. subst rows.
           repeat split; auto.
           intros j' e' [Heq | Hin] Hmj.
           ++ injection Heq as <- <-. lia.
           ++ now apply (Hpre j' e').
    + destruct (IH _ _ _ _ Hfold) as [Heq | [pre [ev' [post [Hrows [Hm' [Hd [Hlt' Hpre]]]]]]]].
      * now left.
      * right. exists ((j, ev) :: pre), ev', post. subst rows.
        repeat split; auto.
        intros j' e' [Heq | Hin] Hmj.
        -- injection Heq as <- <-. congruence.
        -- now apply (Hpre j' e').
Qed.

(** A measured row is a significant row, with or without unique labels. *)
Lemma measured_row_significant (df : DataFrame) (i j : label) (ev : Voxel) :
  In (j, ev) df -> measured (select_negli df) i j = true -> negli ev = false.
Proof.
  intros Hin Hm. unfold measured in Hm.
  apply andb_true_iff in Hm. destruct Hm as [_ Hidx].
  apply negb_true_iff in Hidx.
  destruct (negli ev) eqn:Hev; [| reflexivity].
  assert (Hin' : in_index j (select_negli df) = true).
  { apply in_index_iff. apply (In_index _ j ev). now apply select_negli_In. }
  congruence.
Qed.

(** Ties go to the first row: the voxel paired with a negligible voxel is
    strictly closer to it than every significant voxel on an earlier row
    (the test of line 49 is a strict [<]). *)
Theorem paired_voxel_is_first_nearest :
  forall (event_voxels : DataFrame) (i : label) (negl_voxel : Voxel),
    NoDup (index event_voxels) ->
    In (i, negl_voxel) event_voxels -> negli negl_voxel = true ->
    reachable event_voxels negl_voxel = true ->
    exists k vt,
      nth_error event_voxels k = Some (closest_index event_voxels i negl_voxel, vt)
      /\ negli vt = false
      /\ forall k' j' v', (k' < k)%nat ->
           nth_error event_voxels k' = Some (j', v') -> negli v' = false ->
           dist_lt (distance negl_voxel vt) (distance negl_voxel v').
Proof.
  intros df i vn Hnd Hi Hneg Hreach.
  unfold reachable in Hreach. apply existsb_exists in Hreach.
  destruct Hreach as [[j0 v0] [Hj0 Hok]]. simpl in Hok.
  apply andb_true_iff in Hok. destruct Hok as [Hsig0 Hlt0].
  apply negb_true_iff in Hsig0.
  unfold closest_index, closest_search, iterrows.
  destruct (fold_left (closest_step (select_negli df) i vn) df (dist_of_int 1000, i))
    as [d c] eqn:Hfold.
  simpl.
  destruct (closest_fold_first _ _ _ _ _ _ _ _ Hfold)
    as [Heq | [pre [ev [post [Hrows [Hm [Hd [Hlt Hpre]]]]]]]].
  - exfalso. injection Heq as -> _.
    destruct (closest_fold _ _ _ _ _ _ _ _ Hfold) as [_ [Hall _]].
    specialize (Hall j0 v0 Hj0).
    rewrite (measured_significant df i j0 vn v0 Hnd Hi Hneg Hj0), Hsig0 in Hall.
    specialize (Hall eq_refl).
    unfold dist_ltb in Hlt0. apply Z.ltb_lt in Hlt0. unfold dist_le in Hall. lia.
  - exists (length pre), ev. rewrite Hrows at 1.
    rewrite nth_error_app2, Nat.sub_diag by lia. simpl.
    split; [reflexivity |].
    assert (Hin : In (c, ev) df) by (rewrite Hrows; apply in_elt).
    split; [exact (measured_row_significant df i c ev Hin Hm) |].
    intros k' j' v' Hlt' Hk' Hsig'. subst d.
    rewrite Hrows in Hk'. rewrite nth_error_app1 in Hk' by exact Hlt'.
    apply nth_error_In in Hk'.
    apply (Hpre j' v' Hk').
    rewrite (measured_significant df i j' vn v' Hnd Hi Hneg), Hsig'; [reflexivity |].
    rewrite Hrows. apply in_or_app. now left.
Qed.

Lemma tie_voxels_unique_labels : NoDup (index tie_voxels).
Proof.
  unfold index. simpl. repeat constructor; simpl; intuition discriminate.
Qed.

Lemma paired_voxel_is_first_nearest_witness :
  exists k vt,
    nth_error tie_voxels k
    = Some (closest_index tie_voxels 1 (mkVoxel 1 0 0 1 true), vt)
    /\ negli vt = false
    /\ forall k' j' v', (k' < k)%nat ->
         nth_error tie_voxels k' = Some (j', v') -> negli v' = false ->
         dist_lt (distance (mkVoxel 1 0 0 1 true) vt)
                 (distance (mkVoxel 1 0 0 1 true) v').
Proof.
  apply (paired_voxel_is_first_nearest tie_voxels 1 (mkVoxel 1 0 0 1 true)).
  - exact tie_voxels_unique_labels.
  - right. left. reflexivity.
  - reflexivity.
  - reflexivity.
Defined.

Example get_new_energies_tie :
  get_new_energies tie_voxels = Some [6; 0; 3].
Proof. reflexivity. Qed.

Lemma closest_index_unreached (df : DataFrame) (i : label) (vn : Voxel) :
  reachable df vn = false -> closest_index df i vn = i.
Proof.
  intros Hreach.
  unfold closest_index, closest_search, iterrows.
  destruct (fold_left (closest_step (select_negli df) i vn) df (dist_of_int 1000, i))
    as [d c] eqn:Hfold.
  simpl.
  destruct (closest_fold_first _ _ _ _ _ _ _ _ Hfold)
    as [Heq | [pre [ev [post [Hrows [Hm [Hd [Hlt _]]]]]]]].
  - now injection Heq.
  - exfalso.
    assert (Hin : In (c, ev) df) by (rewrite Hrows; apply in_elt).
    assert (Hyes : reachable df vn = true).
    { unfold reachable. apply existsb_exists. exists (c, ev).
      split; [exact Hin |]. simpl.
      rewrite (measured_row_significant df i c ev Hin Hm). simpl.
      unfold dist_ltb. apply Z.ltb_lt. subst d. exact Hlt. }
    congruence.
Qed.

(** A negligible voxel with no significant voxel within reach stays paired
    with itself: the search ends with [closest_index = i]. *)
Theorem unreached_voxel_keeps_itself :
  forall (event_voxels : DataFrame) (i : label) (negl_voxel : Voxel),
    reachable event_voxels negl_voxel = false ->
    closest_index event_voxels i negl_voxel = i.
Proof.
  intros df i vn Hreach. now apply closest_index_unreached.
Qed.

Lemma unreached_voxel_keeps_itself_witness :
  closest_index far_voxels 1 (mkVoxel 1200 0 0 1 true) = 1.
Proof.
  apply (unreached_voxel_keeps_itself far_voxels 1 (mkVoxel 1200 0 0 1 true)).
  reflexivity.
Defined.

Lemma sum_no_significant_label (df : DataFrame) (l : label) (e : Z) :
  (forall vt, In (l, vt) df -> negli vt = true) ->
  sum (map (fun s => if negli (snd s) then 0 else if fst s =? l then e else 0) df) = 0.
Proof.
  induction df as [| [l2 w2] df IH]; intros Hneg.
  - reflexivity.
  - simpl map. rewrite sum_cons. simpl fst. simpl snd.
    rewrite IH by (intros vt Hin; apply Hneg; now right).
    destruct (negli w2) eqn:Hw; [reflexivity |].
    destruct (l2 =? l) eqn:H2; [| reflexivity].
    apply Z.eqb_eq in H2. subst l2.
    rewrite (Hneg w2) in Hw by now left. discriminate.
Qed.

(** What the significant rows receive adds up to the energy of the rows
    that are paired with a significant row. *)
Lemma routed_total_partial (df : DataFrame) (tgt : label * Voxel -> label)
    (good : label * Voxel -> bool) (rows : list (label * Voxel)) :
  NoDup (index df) ->
  (forall r, In r rows -> good r = true ->
     exists vt, In (tgt r, vt) df /\ negli vt = false) ->
  (forall r, In r rows -> good r = false ->
     forall vt, In (tgt r, vt) df -> negli vt = true) ->
  sum (map (fun s => if negli (snd s) then 0
                     else sum (energies (filter (fun r => fst s =? tgt r) rows))) df)
  = sum (energies (filter good rows)).
Proof.
  intros Hnd. induction rows as [| r rows IH]; intros Hgood Hbad.
  - apply (routed_total df tgt [] Hnd). intros r [].
  - assert (Hstep :
      sum (map (fun s => if negli (snd s) then 0
                         else sum (energies (filter (fun r0 => fst s =? tgt r0) (r :: rows)))) df)
      = sum (map (fun s => if negli (snd s) then 0
                           else if fst s =? tgt r then E (snd r) else 0) df)
        + sum (map (fun s => if negli (snd s) then 0
                             else sum (energies (filter (fun r0 => fst s =? tgt r0) rows))) df)).
    { rewrite <- sum_map_add. apply sum_map_ext. intros [l w] _. cbn [fst snd].
      destruct (negli w); [reflexivity |].
      simpl filter. destruct (l =? tgt r).
      - unfold energies. simpl map. now rewrite sum_cons.
      - lia. }
    rewrite Hstep.
    rewrite IH;
      [| intros r' Hr'; apply Hgood; now right | intros r' Hr'; apply Hbad; now right].
    simpl filter. destruct (good r) eqn:Hg.
    + rewrite (sum_at_label df (tgt r) (E (snd r)) Hnd) by (apply Hgood; [now left | exact Hg]).
      unfold energies. simpl map. now rewrite sum_cons.
    + rewrite (sum_no_significant_label df (tgt r) (E (snd r)))
        by (apply Hbad; [now left | exact Hg]).
      lia.
Qed.

Lemma energies_filter_split (p : label * Voxel -> bool) (rows : list (label * Voxel)) :
  sum (energies rows)
  = sum (energies (filter p rows)) + sum (energies (filter (fun r => negb (p r)) rows)).
Proof.
  unfold energies. induction rows as [| r rows IH]; simpl.
  - reflexivity.
  - rewrite sum_cons, IH. destruct (p r); simpl; rewrite sum_cons; lia.
Qed.

(** The energy balance when sums are exact, on any table with unique
    labels: what the function returns adds up to the energy of the table
    less the energy of the negligible voxels that have no significant voxel
    within reach.  The statement for float64 sums is
    [energy_balance_binary64]. *)
Theorem energy_balance :
  forall event_voxels : DataFrame,
    NoDup (index event_voxels) ->
    exists new_energies,
      get_new_energies event_voxels = Some new_energies
      /\ sum new_energies + sum (energies (unreached event_voxels))
         = sum (energies event_voxels).
Proof.
  intros df Hnd. exists (map (new_energy df) df).
  split; [now apply get_new_energies_rows |].
  rewrite (energies_partition df).
  rewrite (energies_filter_split (fun r => reachable df (snd r)) (select_negli df)).
  fold (unreached df).
  rewrite <- (routed_total_partial df (target df) (fun r => reachable df (snd r))
                (select_negli df) Hnd).
  - rewrite Z.add_assoc. f_equal.
    rewrite <- sum_map_add. apply sum_map_ext. intros [l w] _.
    unfold new_energy, routed. cbn [fst snd]. destruct (negli w); reflexivity.
  - intros [n vn] Hin Hreach. apply select_negli_In in Hin. destruct Hin as [Hin Hneg].
    simpl in Hreach.
    destruct (closest_index_nearest df n vn Hnd Hin Hneg (reachable_sound df vn Hreach))
      as [vt [Hvt [Hsig _]]].
    exists vt. split; assumption.
  - intros [n vn] Hin Hreach vt Hvt. apply select_negli_In in Hin.
    destruct Hin as [Hin Hneg]. simpl in Hreach.
    unfold target in Hvt. simpl in Hvt.
    rewrite (closest_index_unreached df n vn Hreach) in Hvt.
    now rewrite <- (unique_row df n vn vt Hnd Hin Hvt).
Qed.

Lemma energy_balance_witness :
  exists new_energies,
    get_new_energies far_voxels = Some new_energies
    /\ sum new_energies + sum (energies (unreached far_voxels))
       = sum (energies far_voxels).
Proof.
  apply (energy_balance far_voxels). exact far_voxels_unique_labels.
Defined.

Lemma sum_zero_rows (rows : list (label * Voxel)) :
  (forall r, In r rows -> E (snd r) = 0) -> sum (energies rows) = 0.
Proof.
  unfold energies. induction rows as [| r rows IH]; intros Hz; simpl.
  - reflexivity.
  - rewrite sum_cons, (Hz r) by now left.
    rewrite IH; [reflexivity |]. intros r' Hr'. apply Hz. now right.
Qed.

Lemma sum_nonneg_rows (rows : list (label * Voxel)) :
  (forall r, In r rows -> 0 <= E (snd r)) -> 0 <= sum (energies rows).
Proof.
  unfold energies. induction rows as [| r rows IH]; intros Hz; simpl.
  - rewrite sum_nil. lia.
  - rewrite sum_cons.
    assert (0 <= E (snd r)) by (apply Hz; now left).
    assert (0 <= sum (map (fun r0 => E (snd r0)) rows))
      by (apply IH; intros r' Hr'; apply Hz; now right).
    lia.
Qed.

(** The rows paired with a label are negligible rows of the table. *)
Lemma routed_rows_negligible (df : DataFrame) (i : label) (r : label * Voxel) :
  In r (filter (fun r0 => i =? target df r0) (select_negli df)) ->
  In r df /\ negli (snd r) = true.
Proof.
  intros Hin. apply filter_In in Hin. destruct Hin as [Hin _].
  destruct r as [n vn]. now apply select_negli_In in Hin.
Qed.

(** A table whose negligible voxels all carry energy 0 comes back
    unchanged; so running the function again on its own output changes
    nothing. *)
Theorem redistributed_table_is_fixed :
  forall event_voxels : DataFrame,
    NoDup (index event_voxels) ->
    (forall i v, In (i, v) event_voxels -> negli v = true -> E v = 0) ->
    get_new_energies event_voxels = Some (energies event_voxels).
Proof.
  intros df Hnd Hzero.
  rewrite (get_new_energies_rows df Hnd). f_equal.
  unfold energies. apply map_ext_in. intros [i v] Hin.
  unfold new_energy. simpl.
  destruct (negli v) eqn:Hv.
  - symmetry. now apply (Hzero i v).
  - unfold routed. rewrite sum_zero_rows; [lia |].
    intros [n vn] Hr. apply routed_rows_negligible in Hr.
    destruct Hr as [Hr Hneg]. now apply (Hzero n vn).
Qed.

Lemma redistributed_table_is_fixed_witness :
  get_new_energies
    [ (0, mkVoxel 0 0 0 6 false); (1, mkVoxel 1 0 0 0 true); (2, mkVoxel 10 0 0 3 false) ]
  = Some [6; 0; 3].
Proof.
  apply (redistributed_table_is_fixed
           [ (0, mkVoxel 0 0 0 6 false); (1, mkVoxel 1 0 0 0 true);
             (2, mkVoxel 10 0 0 3 false) ]).
  - unfold index. simpl. repeat constructor; simpl; intuition discriminate.
  - intros i v [H | [H | [H | []]]] Hneg; injection H as _ <-;
      solve [reflexivity | discriminate Hneg].
Defined.

(** When the negligible voxels carry no negative energy, no significant
    voxel comes back with less energy than it had. *)
Theorem significant_voxel_never_loses :
  forall event_voxels : DataFrame,
    NoDup (index event_voxels) ->
    (forall i v, In (i, v) event_voxels -> negli v = true -> 0 <= E v) ->
    exists new_energies,
      get_new_energies event_voxels = Some new_energies
      /\ forall k j vj, nth_error event_voxels k = Some (j, vj) -> negli vj = false ->
           exists e, nth_error new_energies k = Some e /\ E vj <= e.
Proof.
  intros df Hnd Hpos. exists (map (new_energy df) df).
  split; [now apply get_new_energies_rows |].
  intros k j vj Hk Hsig.
  exists (new_energy df (j, vj)).
  split; [apply (map_nth_error (new_energy df) k df Hk) |].
  unfold new_energy. simpl. rewrite Hsig.
  assert (0 <= routed df j); [| lia].
  unfold routed. apply sum_nonneg_rows.
  intros [n vn] Hr. apply routed_rows_negligible in Hr.
  destruct Hr as [Hr Hneg]. now apply (Hpos n vn).
Qed.

Lemma significant_voxel_never_loses_witness :
  exists new_energies,
    get_new_energies example1 = Some new_energies
    /\ forall k j vj, nth_error example1 k = Some (j, vj) -> negli vj = false ->
         exists e, nth_error new_energies k = Some e /\ E vj <= e.
Proof.
  apply (significant_voxel_never_loses example1).
  - exact example1_unique_labels.
  - intros i v [H | [H | [H | []]]] _; injection H as _ <-; simpl; lia.
Defined.

(** ** [get_new_energies]: the pairing reads no energy *)

Lemma distance_by_position (a a' b b' : Voxel) :
  voxel_pos a = voxel_pos a' -> voxel_pos b = voxel_pos b' ->
  distance a b = distance a' b'.
Proof.
  unfold voxel_pos, distance. intros Ha Hb.
  injection Ha as -> -> ->. injection Hb as -> -> ->. reflexivity.
Qed.

Lemma same_geometry_negli (df df' : DataFrame) :
  same_geometry df df' -> same_geometry (select_negli df) (select_negli df').
Proof.
  unfold same_geometry, select_negli.
  induction 1 as [| r r' df df' [Hl [Hp Hn]] Hrest IH]; simpl.
  - constructor.
  - rewrite <- Hn. destruct (negli (snd r)) eqn:Hr; simpl.
    + constructor; [| exact IH]. repeat split; congruence.
    + exact IH.
Qed.

Lemma same_geometry_index (df df' : DataFrame) :
  same_geometry df df' -> index df = index df'.
Proof.
  unfold same_geometry, index.
  induction 1 as [| r r' df df' [Hl _] Hrest IH]; simpl; congruence.
Qed.

Lemma closest_fold_same_geometry (N N' : DataFrame) (i : label) (vn vn' : Voxel)
    (rows rows' : list (label * Voxel)) :
  index N = index N' -> voxel_pos vn = voxel_pos vn' ->
  same_geometry rows rows' ->
  forall st,
    fold_left (closest_step N i vn) rows st
    = fold_left (closest_step N' i vn') rows' st.
Proof.
  intros Hidx Hpos Hrows.
  induction Hrows as [| [j ev] [j' ev'] rows rows' [Hl [Hp Hn]] Hrest IH]; intros st.
  - reflexivity.
  - simpl in Hl, Hp. subst j'. simpl fold_left.
    replace (closest_step N' i vn' st (j, ev')) with (closest_step N i vn st (j, ev)).
    + apply IH.
    + destruct st as [d c]. unfold closest_step, in_index.
      rewrite Hidx, (distance_by_position vn vn' ev ev' Hpos Hp). reflexivity.
Qed.

Lemma closest_index_same_geometry (df df' : DataFrame) (i : label) (vn vn' : Voxel) :
  same_geometry df df' -> voxel_pos vn = voxel_pos vn' ->
  closest_index df i vn = closest_index df' i vn'.
Proof.
  intros Hsame Hpos.
  unfold closest_index, closest_search, iterrows. f_equal.
  apply closest_fold_same_geometry; [| exact Hpos | exact Hsame].
  apply same_geometry_index. now apply same_geometry_negli.
Qed.

(** The pairing depends on the labels, the positions and the flags only:
    two tables that differ in nothing but the energies are paired alike. *)
Theorem pairing_ignores_energies :
  forall event_voxels event_voxels' : DataFrame,
    same_geometry event_voxels event_voxels' ->
    negl_neig_pairs event_voxels = negl_neig_pairs event_voxels'.
Proof.
  intros df df' Hsame.
  pose proof (same_geometry_negli df df' Hsame) as Hnegl.
  unfold negl_neig_pairs, iterrows.
  induction Hnegl as [| [n vn] [n' vn'] rows rows' [Hl [Hp _]] Hrest IH]; simpl.
  - reflexivity.
  - simpl in Hl, Hp. subst n'. f_equal; [| exact IH].
    f_equal. now apply closest_index_same_geometry.
Qed.

Lemma pairing_ignores_energies_witness :
  negl_neig_pairs example1
  = negl_neig_pairs
      [ (0, mkVoxel 0 0 0 6 false); (1, mkVoxel 1 0 0 0 true); (2, mkVoxel 10 0 0 3 false) ].
Proof.
  apply (pairing_ignores_energies example1).
  repeat constructor.
Defined.

(** ** [get_voxel_track_relations] *)

Lemma relations_cons (event_tracks : list Graph) (row : label * Voxel) (df : DataFrame) :
  get_voxel_track_relations (row :: df) event_tracks
  = relation_step event_tracks [] row ++ get_voxel_track_relations df event_tracks.
Proof. apply (relations_split event_tracks [] row df). Qed.

Lemma has_pos_iff (t : Graph) (p : position) :
  has_pos t p = true <-> contains_pos t p.
Proof.
  unfold has_pos, contains_pos. rewrite existsb_exists.
  split; intros [node [Hin Hp]]; exists node; split; auto.
  - symmetry. now apply pos_eqb_eq.
  - apply pos_eqb_eq. now symmetry.
Qed.

Lemma matched_iff (event_tracks : list Graph) (p : position) :
  existsb (fun t => has_pos t p) event_tracks = true
  <-> exists t, In t event_tracks /\ contains_pos t p.
Proof.
  rewrite existsb_exists.
  split; intros [t [Hin Hp]]; exists t; split; auto; now apply has_pos_iff.
Qed.

(** What one voxel adds to the list: the marker when it is negligible, the
    index of a track that holds its position when there is one, and nothing
    otherwise. *)
Lemma relation_step_entry (event_tracks : list Graph) (i : label) (v : Voxel) :
  (negli v = true /\ relation_step event_tracks [] (i, v) = [NoTrack])
  \/ (negli v = false
      /\ exists j t, relation_step event_tracks [] (i, v) = [TrackId j]
                     /\ nth_error event_tracks j = Some t
                     /\ contains_pos t (voxel_pos v))
  \/ (negli v = false
      /\ existsb (fun t => has_pos t (voxel_pos v)) event_tracks = false
      /\ relation_step event_tracks [] (i, v) = []).
Proof.
  unfold relation_step. destruct (negli v) eqn:Hv; [left; auto | right].
  simpl negb. cbv iota.
  destruct (first_track_or_none (voxel_pos v) event_tracks)
    as [[k [t [Hnth [Hc Hfirst]]]] | Hno].
  - left. split; [reflexivity |]. exists k, t.
    rewrite (scan_tracks_first _ _ 0%nat [] k t Hnth Hc Hfirst). auto.
  - right. split; [reflexivity |].
    rewrite scan_tracks_none by exact Hno. split; [| reflexivity].
    destruct (existsb (fun t => has_pos t (voxel_pos v)) event_tracks) eqn:Hex;
      [| reflexivity].
    apply matched_iff in Hex. destruct Hex as [t [Hin Hc]].
    now destruct (Hno t Hin).
Qed.

(** The list never has more entries than the table has voxels: it has one
    entry for each voxel that is negligible or lies in some track, and none
    for the others. *)
Theorem relations_length :
  forall (event_voxels : DataFrame) (event_tracks : list Graph),
    length (get_voxel_track_relations event_voxels event_tracks)
    = length (filter (fun r => has_entry event_tracks (snd r)) event_voxels)
    /\ (length (get_voxel_track_relations event_voxels event_tracks)
        <= length event_voxels)%nat.
Proof.
  intros df tracks.
  assert (Hlen : length (get_voxel_track_relations df tracks)
                 = length (filter (fun r => has_entry tracks (snd r)) df)).
  { induction df as [| [i v] df IH].
    - reflexivity.
    - rewrite relations_cons, length_app, IH. simpl filter. unfold has_entry at 2.
      simpl snd.
      destruct (relation_step_entry tracks i v)
        as [[Hv ->] | [[Hv [j [t [-> [Hnth Hc]]]]] | [Hv [Hex ->]]]];
        rewrite Hv; simpl orb.
      + reflexivity.
      + replace (existsb (fun t0 => has_pos t0 (voxel_pos v)) tracks) with true;
          [reflexivity |].
        symmetry. apply matched_iff. exists t. split; [| exact Hc].
        now apply (nth_error_In _ j).
      + rewrite Hex. reflexivity. }
  split; [exact Hlen |].
  rewrite Hlen. apply filter_length_le.
Qed.

(** Every index in the list is the index of a track of the sequence, and
    that track holds the position of a significant voxel of the table. *)
Theorem track_ids_are_valid :
  forall (event_voxels : DataFrame) (event_tracks : list Graph) (j : nat),
    In (TrackId j) (get_voxel_track_relations event_voxels event_tracks) ->
    exists t i v,
      nth_error event_tracks j = Some t
      /\ In (i, v) event_voxels /\ negli v = false
      /\ contains_pos t (voxel_pos v).
Proof.
  intros df tracks j.
  induction df as [| [i v] df IH]; intros Hin.
  - contradiction.
  - rewrite relations_cons in Hin. apply in_app_or in Hin.
    destruct Hin as [Hin | Hin].
    + destruct (relation_step_entry tracks i v)
        as [[Hv Heq] | [[Hv [j' [t [Heq [Hnth Hc]]]]] | [Hv [Hex Heq]]]];
        rewrite Heq in Hin.
      * destruct Hin as [Hin | []]. discriminate Hin.
      * destruct Hin as [Hin | []]. injection Hin as ->.
        exists t, i, v. repeat split; auto. now left.
      * contradiction.
    + destruct (IH Hin) as [t [i' [v' [Hnth [Hin' [Hsig Hc]]]]]].
      exists t, i', v'. repeat split; auto. now right.
Qed.

Lemma track_ids_are_valid_witness :
  exists t i v,
    nth_error [single 10 3; single 0 6] 1 = Some t
    /\ In (i, v) example1 /\ negli v = false
    /\ contains_pos t (voxel_pos v).
Proof.
  apply (track_ids_are_valid example1 [single 10 3; single 0 6] 1).
  left. reflexivity.
Defined.

(** With no track at all, only the negligible voxels are given an entry. *)
Theorem relations_without_tracks :
  forall event_voxels : DataFrame,
    get_voxel_track_relations event_voxels []
    = map (fun _ => NoTrack) (select_negli event_voxels).
Proof.
  intros df. induction df as [| [i v] df IH].
  - reflexivity.
  - rewrite relations_cons, IH. unfold select_negli. simpl.
    unfold relation_step. destruct (negli v); reflexivity.
Qed.

(** The markers of the list are as many as the negligible voxels: no
    significant voxel is ever given the marker. *)
Theorem markers_are_the_negligible_voxels :
  forall (event_voxels : DataFrame) (event_tracks : list Graph),
    filter is_no_track (get_voxel_track_relations event_voxels event_tracks)
    = map (fun _ => NoTrack) (select_negli event_voxels).
Proof.
  intros df tracks. induction df as [| [i v] df IH].
  - reflexivity.
  - rewrite relations_cons, filter_app, IH.
    change (select_negli ((i, v) :: df))
      with (if Bool.eqb (negli v) true then (i, v) :: select_negli df
            else select_negli df).
    destruct (relation_step_entry tracks i v)
      as [[Hv ->] | [[Hv [j [t [-> _]]]] | [Hv [_ ->]]]];
      rewrite Hv; reflexivity.
Qed.

Lemma relations_length_when_matched_witness :
  length (get_voxel_track_relations example1 [single 10 3; single 0 6])
  = length example1.
Proof.
  apply (relations_length_when_matched example1 [single 10 3; single 0 6]).
  intros i v [H | [H | [H | []]]] Hsig; injection H as _ <-.
  - exists (single 0 6). split; [right; left; reflexivity |].
    exists (mkNode 0 0 0 6). split; [left; reflexivity | reflexivity].
  - discriminate Hsig.
  - exists (single 10 3). split; [left; reflexivity |].
    exists (mkNode 10 0 0 3). split; [left; reflexivity | reflexivity].
Defined.

(** ** [process_tracks] *)

Section ProcessTracksMore.

Variable track_length : Graph -> option Z.
Variable track_Eth : Z.

(** A track that reaches the threshold and on which [track_length] raises
    makes the loop raise. *)
Lemma score_loop_raises (event_tracks : list Graph) :
  (exists t, In t event_tracks /\ track_Eth <= track_energy t
             /\ track_length t = None) ->
  forall acc,
    for_each (score_step track_length track_Eth) event_tracks acc = None.
Proof.
  induction event_tracks as [| t0 tracks IH]; intros [t [Hin [Hge Hnone]]] acc.
  - contradiction.
  - simpl. unfold score_step at 1.
    destruct Hin as [-> | Hin].
    + replace (track_energy t >=? track_Eth) with true
        by (symmetry; now apply Z.geb_le).
      now rewrite Hnone.
    + assert (Hbad : exists t, In t tracks /\ track_Eth <= track_energy t
                               /\ track_length t = None)
        by (exists t; auto).
      destruct (track_energy t0 >=? track_Eth).
      * destruct (track_length t0); simpl; [now apply IH | reflexivity].
      * simpl. now apply IH.
Qed.

Lemma raising_track_or_none (event_tracks : list Graph) :
  (exists t, In t event_tracks /\ track_Eth <= track_energy t
             /\ track_length t = None)
  \/ (forall t, In t event_tracks -> track_Eth <= track_energy t ->
                track_length t <> None).
Proof.
  induction event_tracks as [| t0 tracks IH].
  - right. intros t [].
  - destruct IH as [[t [Hin [Hge Hnone]]] | Hok].
    + left. exists t. split; [now right | auto].
    + destruct (Z_le_gt_dec track_Eth (track_energy t0)) as [Hge | Hlt].
      * destruct (track_length t0) as [l |] eqn:Hl.
        -- right. intros t [<- | Hin] Hge'; [congruence | now apply Hok].
        -- left. exists t0. split; [now left | auto].
      * right. intros t [<- | Hin] Hge'; [lia | now apply Hok].
Qed.

(** The second components are the lengths that [track_length] returned. *)
Lemma score_loop_lengths (event_tracks : list Graph) :
  forall acc out,
    for_each (score_step track_length track_Eth) event_tracks acc = Some out ->
    exists scored,
      out = acc ++ scored
      /\ Forall (fun s => track_length (item2 s) = Some (item1 s)) scored.
Proof.
  induction event_tracks as [| t tracks IH]; intros acc out Hrun; simpl in Hrun.
  - injection Hrun as <-. exists []. split; [now rewrite app_nil_r | constructor].
  - unfold score_step at 1 in Hrun.
    destruct (track_energy t >=? track_Eth).
    + destruct (track_length t) as [l |] eqn:Hl; simpl in Hrun; [| discriminate].
      destruct (IH _ _ Hrun) as [scored [-> Hall]].
      exists ((track_energy t, l, t) :: scored).
      split; [now rewrite <- app_assoc |].
      constructor; [exact Hl | exact Hall].
    + simpl in Hrun. apply (IH _ _ Hrun).
Qed.

End ProcessTracksMore.

(** [process_tracks] raises exactly when [track_length] raises on a track
    whose energy reaches the threshold. *)
Theorem process_tracks_raises_iff :
  forall (track_length : Graph -> option Z) (event_tracks : list Graph) (track_Eth : Z),
    process_tracks track_length event_tracks track_Eth = None
    <-> exists t, In t event_tracks /\ track_Eth <= track_energy t
                  /\ track_length t = None.
Proof.
  intros tl tracks th. unfold process_tracks. split.
  - intros Hnone.
    destruct (raising_track_or_none tl th tracks) as [Hbad | Hok]; [exact Hbad |].
    destruct (score_loop tl th tracks Hok []) as [scored [Hrun _]].
    rewrite Hrun in Hnone. discriminate.
  - intros Hbad. now rewrite (score_loop_raises tl th tracks Hbad []).
Qed.

(** When [process_tracks] returns, its tuples are the tracks that reach the
    threshold, each once and each with the length that [track_length]
    returned for it. *)
Theorem process_tracks_contents :
  forall (track_length : Graph -> option Z) (event_tracks : list Graph) (track_Eth : Z)
         (result : list scored_track),
    process_tracks track_length event_tracks track_Eth = Some result ->
    Permutation (map item2 result)
                (filter (fun t => track_energy t >=? track_Eth) event_tracks)
    /\ forall s, In s result ->
         item0 s = track_energy (item2 s)
         /\ track_length (item2 s) = Some (item1 s).
Proof.
  intros tl tracks th result Hpt.
  destruct (raising_track_or_none tl th tracks) as [Hbad | Hok].
  - unfold process_tracks in Hpt.
    rewrite (score_loop_raises tl th tracks Hbad []) in Hpt. discriminate.
  - destruct (score_loop tl th tracks Hok []) as [scored [Hrun [Hmap Hall]]].
    destruct (score_loop_lengths tl th tracks [] _ Hrun) as [scored' [Heq Hlen]].
    simpl in Heq. subst scored'.
    unfold process_tracks in Hpt. rewrite Hrun in Hpt. simpl in Hpt.
    injection Hpt as <-.
    pose proof (sorted_perm item0 true scored) as Hperm.
    split.
    + rewrite <- Hmap. now apply Permutation_map.
    + intros s Hin. apply (Permutation_in _ Hperm) in Hin.
      rewrite Forall_forall in Hall, Hlen. split; auto.
Qed.

Lemma process_tracks_contents_witness :
  Permutation
    (map item2 [(80, 1, single 2 80); (50, 1, single 0 50)])
    (filter (fun t => track_energy t >=? 20) [single 0 50; single 1 10; single 2 80])
  /\ forall s, In s [(80, 1, single 2 80); (50, 1, single 0 50)] ->
       item0 s = track_energy (item2 s)
       /\ unit_length (item2 s) = Some (item1 s).
Proof.
  apply (process_tracks_contents unit_length [single 0 50; single 1 10; single 2 80] 20).
  reflexivity.
Defined.

(** [track_length] is never called on a track below the threshold: two
    length functions that agree on the tracks reaching the threshold give
    the same outcome. *)
Theorem track_length_unused_below_threshold :
  forall (track_length track_length' : Graph -> option Z)
         (event_tracks : list Graph) (track_Eth : Z),
    (forall t, In t event_tracks -> track_Eth <= track_energy t ->
               track_length t = track_length' t) ->
    process_tracks track_length event_tracks track_Eth
    = process_tracks track_length' event_tracks track_Eth.
Proof.
  intros tl tl' tracks th Hagree. unfold process_tracks. f_equal.
  generalize (@nil scored_track) as acc.
  induction tracks as [| t tracks IH]; intros acc; simpl.
  - reflexivity.
  - assert (Hstep : score_step tl th acc t = score_step tl' th acc t).
    { unfold score_step. destruct (track_energy t >=? th) eqn:Hge; [| reflexivity].
      apply Z.geb_le in Hge. rewrite (Hagree t) by (auto; now left). reflexivity. }
    rewrite Hstep. destruct (score_step tl' th acc t) as [acc' |]; simpl.
    + apply IH. intros t' Hin. apply Hagree. now right.
    + reflexivity.
Qed.

Lemma track_length_unused_below_threshold_witness :
  process_tracks unit_length [single 0 50; single 1 10; single 2 80] 20
  = process_tracks (fun t => if track_energy t <? 20 then None else unit_length t)
      [single 0 50; single 1 10; single 2 80] 20.
Proof.
  apply (track_length_unused_below_threshold unit_length
           (fun t => if track_energy t <? 20 then None else unit_length t)
           [single 0 50; single 1 10; single 2 80] 20).
  intros t _ Hge.
  replace (track_energy t <? 20) with false; [reflexivity |].
  symmetry. apply Z.ltb_ge. exact Hge.
Defined.

(** ** Raising the threshold *)

Section SortedFilter.

Context {A : Type}.
Variable key : A -> Z.
Variable p : A -> bool.

Lemma sorted_insert_front (x : A) (l : list A) :
  Forall (fun a => key a <= key x) l ->
  sorted_insert key true x l = x :: l.
Proof.
  intros Hall. destruct l as [| y l]; [reflexivity |].
  simpl. apply Forall_inv in Hall.
  replace (key y <=? key x) with true; [reflexivity |].
  symmetry. now apply Z.leb_le.
Qed.

Lemma filter_sorted_insert_dropped (x : A) (l : list A) :
  p x = false ->
  filter p (sorted_insert key true x l) = filter p l.
Proof.
  intros Hx. induction l as [| y l IH]; simpl.
  - now rewrite Hx.
  - destruct (key y <=? key x); simpl.
    + now rewrite Hx.
    + now rewrite IH.
Qed.

Lemma filter_sorted_insert_kept (x : A) (l : list A) :
  StronglySorted (fun a b => key b <= key a) l ->
  p x = true ->
  filter p (sorted_insert key true x l) = sorted_insert key true x (filter p l).
Proof.
  intros Hs Hx. induction l as [| y l IH]; simpl.
  - now rewrite Hx.
  - apply StronglySorted_inv in Hs. destruct Hs as [Hs Hall].
    destruct (key y <=? key x) eqn:Hle.
    + apply Z.leb_le in Hle. simpl. rewrite Hx.
      symmetry. apply sorted_insert_front.
      destruct (p y).
      * constructor; [exact Hle |].
        apply Forall_forall. intros a Ha. apply filter_In in Ha.
        rewrite Forall_forall in Hall. specialize (Hall a (proj1 Ha)). lia.
      * apply Forall_forall. intros a Ha. apply filter_In in Ha.
        rewrite Forall_forall in Hall. specialize (Hall a (proj1 Ha)). lia.
    + simpl. destruct (p y); simpl.
      * rewrite Hle. now rewrite IH.
      * now apply IH.
Qed.

(** Filtering commutes with the descending stable sort. *)
Lemma sorted_filter (l : list A) :
  sorted key true (filter p l) = filter p (sorted key true l).
Proof.
  induction l as [| x l IH]; simpl.
  - reflexivity.
  - destruct (p x) eqn:Hx.
    + simpl. rewrite IH. symmetry.
      apply filter_sorted_insert_kept; [apply sorted_descending | exact Hx].
    + rewrite IH. symmetry. now apply filter_sorted_insert_dropped.
Qed.

End SortedFilter.

(** The loop under a higher threshold keeps, of what the loop under the
    lower threshold kept, the tuples whose energy reaches the higher one. *)
Lemma score_loop_higher (track_length : Graph -> option Z) (th1 th2 : Z)
    (event_tracks : list Graph) :
  th1 <= th2 ->
  forall acc1 out1,
    for_each (score_step track_length th1) event_tracks acc1 = Some out1 ->
    exists scored1,
      out1 = acc1 ++ scored1
      /\ forall acc2,
           for_each (score_step track_length th2) event_tracks acc2
           = Some (acc2 ++ filter (fun s => item0 s >=? th2) scored1).
Proof.
  intros Hth.
  induction event_tracks as [| t tracks IH]; intros acc1 out1 Hrun; simpl in Hrun.
  - injection Hrun as <-. exists []. split; [now rewrite app_nil_r |].
    intros acc2. simpl. now rewrite app_nil_r.
  - unfold score_step at 1 in Hrun.
    destruct (track_energy t >=? th1) eqn:Hge1.
    + destruct (track_length t) as [l |] eqn:Hl; simpl in Hrun; [| discriminate].
      destruct (IH _ _ Hrun) as [scored1 [-> Hnext]].
      exists ((track_energy t, l, t) :: scored1).
      split; [now rewrite <- app_assoc |].
      intros acc2. simpl for_each. unfold score_step at 1.
      simpl filter. unfold item0 at 1. simpl fst.
      destruct (track_energy t >=? th2).
      * rewrite Hl. simpl. rewrite Hnext. now rewrite <- app_assoc.
      * simpl. apply Hnext.
    + simpl in Hrun. destruct (IH _ _ Hrun) as [scored1 [-> Hnext]].
      exists scored1. split; [reflexivity |].
      intros acc2. simpl for_each. unfold score_step at 1.
      replace (track_energy t >=? th2) with false; [simpl; apply Hnext |].
      symmetry. rewrite Z.geb_leb in *. apply Z.leb_gt. apply Z.leb_gt in Hge1. lia.
Qed.

(** Raising the threshold only removes tuples: the result under a higher
    threshold is the result under the lower one without the tuples whose
    energy is below the higher threshold, in the same order. *)
Theorem raising_threshold_filters :
  forall (track_length : Graph -> option Z) (event_tracks : list Graph)
         (th1 th2 : Z) (result1 : list scored_track),
    th1 <= th2 ->
    process_tracks track_length event_tracks th1 = Some result1 ->
    process_tracks track_length event_tracks th2
    = Some (filter (fun s => item0 s >=? th2) result1).
Proof.
  intros tl tracks th1 th2 r1 Hth Hpt. unfold process_tracks in *.
  destruct (for_each (score_step tl th1) tracks []) as [out1 |] eqn:Hrun;
    simpl in Hpt; [| discriminate].
  injection Hpt as <-.
  destruct (score_loop_higher tl th1 th2 tracks Hth [] out1 Hrun) as [scored1 [-> Hnext]].
  rewrite (Hnext []). simpl. f_equal.
  apply sorted_filter.
Qed.

Lemma raising_threshold_filters_witness :
  process_tracks unit_length [single 0 50; single 1 10; single 2 80] 60
  = Some (filter (fun s => item0 s >=? 60) [(80, 1, single 2 80); (50, 1, single 0 50)]).
Proof.
  apply (raising_threshold_filters unit_length [single 0 50; single 1 10; single 2 80] 20 60).
  - lia.
  - reflexivity.
Defined.

(** ** The association reads no energy *)

(** The list depends on the positions and the flags of the voxels only: two
    tables that differ in nothing but the energies, such as a table before
    and after its energies are redistributed, give the same list. *)
Theorem relations_ignore_energies :
  forall (event_voxels event_voxels' : DataFrame) (event_tracks : list Graph),
    same_geometry event_voxels event_voxels' ->
    get_voxel_track_relations event_voxels event_tracks
    = get_voxel_track_relations event_voxels' event_tracks.
Proof.
  intros df df' tracks Hsame.
  induction Hsame as [| [i v] [i' v'] df df' [_ [Hp Hn]] Hrest IH].
  - reflexivity.
  - rewrite !relations_cons, IH. f_equal.
    simpl in Hp, Hn. unfold relation_step. now rewrite Hp, Hn.
Qed.

Lemma relations_ignore_energies_witness :
  get_voxel_track_relations example1 [single 10 3; single 0 6]
  = get_voxel_track_relations
      [ (0, mkVoxel 0 0 0 6 false); (1, mkVoxel 1 0 0 0 true); (2, mkVoxel 10 0 0 3 false) ]
      [single 10 3; single 0 6].
Proof.
  apply (relations_ignore_energies example1).
  repeat constructor.
Defined.

(** * Sums in binary64 *)

Example b64_round_examples :
  b64_round (2 ^ 53) = 2 ^ 53
  /\ b64_round (2 ^ 53 + 1) = 2 ^ 53
  /\ b64_round (2 ^ 53 + 2) = 2 ^ 53 + 2
  /\ b64_round (2 ^ 53 + 3) = 2 ^ 53 + 4
  /\ b64_round (- (2 ^ 54 + 2)) = - 2 ^ 54
  /\ b64_round (2 ^ 54 + 6) = 2 ^ 54 + 8.
Proof. repeat split; vm_compute; reflexivity. Qed.

(** A single negligible voxel loses its energy in float64 as well. *)
Example lone_negligible_binary64 :
  get_new_energies_b64 lone_negligible = Some [0]
  /\ b64_sum [0] <> b64_sum (energies lone_negligible).
Proof. split; [reflexivity | vm_compute; discriminate]. Qed.

(** Where the energy of the table does not fit 53 bits the returned sum and
    the sum of the table differ: here by 2. *)
Example rounding_loses_energy :
  get_new_energies_b64 rounding_voxels = Some [0; 2 ^ 53; 0]
  /\ b64_sum [0; 2 ^ 53; 0] = 2 ^ 53
  /\ b64_sum (energies rounding_voxels) = 2 ^ 53 + 2.
Proof. repeat split; vm_compute; reflexivity. Qed.

(** A value of at most 53 bits is a float64 value: it is not rounded. *)
Lemma b64_round_exact (x : Z) : Z.abs x <= 2 ^ 53 -> b64_round x = x.
Proof.
  intros Hx. unfold b64_round. cbv zeta.
  destruct (Z.abs x <? 2 ^ 53) eqn:Hlt; [reflexivity |].
  apply Z.ltb_ge in Hlt.
  assert (Habs : Z.abs x = 2 ^ 53) by lia.
  rewrite Habs.
  destruct (Z.abs_eq_or_opp x) as [Hpos | Hneg].
  - rewrite Hpos in Habs. subst x. vm_compute. reflexivity.
  - assert (Hx' : x = - 2 ^ 53) by lia. subst x. vm_compute. reflexivity.
Qed.

Lemma abs_sum_nil : abs_sum [] = 0.
Proof. reflexivity. Qed.

Lemma abs_sum_cons (x : Z) (l : list Z) : abs_sum (x :: l) = Z.abs x + abs_sum l.
Proof. unfold abs_sum. simpl map. apply sum_cons. Qed.

Lemma abs_sum_nonneg (l : list Z) : 0 <= abs_sum l.
Proof.
  induction l as [| x l IH].
  - rewrite abs_sum_nil. lia.
  - rewrite abs_sum_cons. lia.
Qed.

Lemma sum_le_abs_sum (l : list Z) : Z.abs (sum l) <= abs_sum l.
Proof.
  induction l as [| x l IH].
  - rewrite sum_nil, abs_sum_nil. simpl. lia.
  - rewrite sum_cons, abs_sum_cons. lia.
Qed.

(** A left fold of rounded additions over values whose magnitudes fit 53
    bits together rounds nowhere. *)
Lemma b64_fold_exact (l : list Z) :
  forall a, Z.abs a + abs_sum l <= 2 ^ 53 ->
            fold_left b64_add l a = a + sum l.
Proof.
  induction l as [| x l IH]; intros a Hb.
  - simpl. rewrite sum_nil. lia.
  - rewrite abs_sum_cons in Hb. pose proof (abs_sum_nonneg l) as Hl.
    simpl fold_left. unfold b64_add at 2.
    rewrite b64_round_exact by lia.
    rewrite IH by lia. rewrite sum_cons. lia.
Qed.

Lemma b64_sum_exact (l : list Z) : abs_sum l <= 2 ^ 53 -> b64_sum l = sum l.
Proof.
  intros Hb. unfold b64_sum. rewrite b64_fold_exact by (simpl Z.abs; lia). lia.
Qed.

Lemma abs_energies_cons (r : label * Voxel) (rows : list (label * Voxel)) :
  abs_sum (energies (r :: rows)) = Z.abs (E (snd r)) + abs_sum (energies rows).
Proof. unfold energies. simpl map. apply abs_sum_cons. Qed.

Lemma select_negli_cons (i : label) (v : Voxel) (df : DataFrame) :
  select_negli ((i, v) :: df)
  = if negli v then (i, v) :: select_negli df else select_negli df.
Proof. unfold select_negli. simpl. destruct (negli v); reflexivity. Qed.

Lemma abs_energies_filter (p : label * Voxel -> bool) (rows : list (label * Voxel)) :
  abs_sum (energies (filter p rows)) <= abs_sum (energies rows).
Proof.
  induction rows as [| r rows IH]; simpl filter.
  - lia.
  - rewrite abs_energies_cons. destruct (p r); [rewrite abs_energies_cons |]; lia.
Qed.

Lemma abs_energies_negli (df : DataFrame) :
  abs_sum (energies (select_negli df)) <= abs_sum (energies df).
Proof. apply abs_energies_filter. Qed.

(** A significant row and any of the negligible rows fit together in the
    total of the table. *)
Lemma significant_row_bound (p : label * Voxel -> bool) (df : DataFrame)
    (j : label) (vj : Voxel) :
  In (j, vj) df -> negli vj = false ->
  Z.abs (E vj) + abs_sum (energies (filter p (select_negli df)))
  <= abs_sum (energies df).
Proof.
  induction df as [| [l w] df IH]; intros Hin Hsig.
  - contradiction.
  - rewrite abs_energies_cons, select_negli_cons. simpl snd.
    destruct Hin as [Heq | Hin].
    + injection Heq as -> ->. rewrite Hsig.
      pose proof (abs_energies_filter p (select_negli df)).
      pose proof (abs_energies_negli df). lia.
    + specialize (IH Hin Hsig).
      destruct (negli w); [| lia].
      simpl filter. destruct (p (l, w)); [rewrite abs_energies_cons; simpl snd |]; lia.
Qed.

Lemma for_each_ext_in {S A : Type} (f g : S -> A -> option S) (l : list A) :
  (forall s x, In x l -> f s x = g s x) ->
  forall s, for_each f l s = for_each g l s.
Proof.
  induction l as [| x l IH]; intros Hfg s; simpl.
  - reflexivity.
  - rewrite (Hfg s x) by now left.
    destruct (g s x) as [s' |]; simpl; [| reflexivity].
    apply IH. intros s0 y Hy. apply Hfg. now right.
Qed.

(** On a table with unique labels and exact energies no addition of the
    second loop rounds. *)
Lemma new_energy_step_b64_exact (df : DataFrame) (acc : list Z) (r : label * Voxel) :
  NoDup (index df) -> exact_energies df -> In r df ->
  new_energy_step_b64 df acc r = new_energy_step df acc r.
Proof.
  intros Hnd Hex Hin. destruct r as [i v].
  unfold new_energy_step_b64, new_energy_step.
  rewrite (in_negl_index df i v Hnd Hin).
  destruct (negli v) eqn:Hv; [reflexivity |].
  destruct (existsb (Z.eqb i) (neig_index df)); [| reflexivity].
  rewrite (extra_terms_pairs df i Hnd). simpl.
  pose proof (significant_row_bound (fun r => i =? target df r) df i v Hin Hv) as Hb.
  pose proof (sum_le_abs_sum (energies (filter (fun r => i =? target df r) (select_negli df)))) as Hs.
  pose proof (abs_sum_nonneg (energies (filter (fun r => i =? target df r) (select_negli df)))) as Hn.
  unfold exact_energies in Hex.
  rewrite b64_sum_exact by lia.
  unfold b64_add. rewrite b64_round_exact by lia.
  reflexivity.
Qed.

Lemma get_new_energies_b64_exact (df : DataFrame) :
  NoDup (index df) -> exact_energies df ->
  get_new_energies_b64 df = get_new_energies df.
Proof.
  intros Hnd Hex. unfold get_new_energies_b64, get_new_energies.
  apply for_each_ext_in. intros acc r Hin.
  now apply new_energy_step_b64_exact.
Qed.

Lemma sum_map_le {A : Type} (f g : A -> Z) (l : list A) :
  (forall x, In x l -> f x <= g x) -> sum (map f l) <= sum (map g l).
Proof.
  induction l as [| x l IH]; intros Hfg; simpl map.
  - lia.
  - rewrite !sum_cons.
    assert (f x <= g x) by (apply Hfg; now left).
    assert (sum (map f l) <= sum (map g l)) by (apply IH; intros y Hy; apply Hfg; now right).
    lia.
Qed.

Lemma sum_map_zero {A : Type} (l : list A) : sum (map (fun _ => 0) l) = 0.
Proof.
  induction l as [| x l IH]; simpl map.
  - reflexivity.
  - rewrite sum_cons, IH. reflexivity.
Qed.

Lemma significant_label_or_none (df : DataFrame) (l : label) :
  (exists vt, In (l, vt) df /\ negli vt = false)
  \/ (forall vt, In (l, vt) df -> negli vt = true).
Proof.
  induction df as [| [l' w] df IH].
  - right. intros vt [].
  - destruct IH as [[vt [Hin Hsig]] | Hnone].
    + left. exists vt. split; [now right | exact Hsig].
    + destruct (Z.eq_dec l' l) as [-> | Hne].
      * destruct (negli w) eqn:Hw.
        -- right. intros vt [Heq | Hin]; [congruence | now apply Hnone].
        -- left. exists w. split; [now left | exact Hw].
      * right. intros vt [Heq | Hin]; [congruence | now apply Hnone].
Qed.

(** With unique labels an amount sent to a label reaches at most one
    significant row. *)
Lemma sum_at_most_once (df : DataFrame) (l : label) (e : Z) :
  NoDup (index df) -> 0 <= e ->
  sum (map (fun s => if negli (snd s) then 0 else if fst s =? l then e else 0) df) <= e.
Proof.
  intros Hnd He.
  destruct (significant_label_or_none df l) as [Hsome | Hnone].
  - rewrite (sum_at_label df l e Hnd Hsome). lia.
  - rewrite (sum_no_significant_label df l e Hnone). exact He.
Qed.

(** What the significant rows receive is, in magnitude, at most what the
    paired rows hold. *)
Lemma routed_abs_bound (df : DataFrame) (tgt : label * Voxel -> label)
    (rows : list (label * Voxel)) :
  NoDup (index df) ->
  sum (map (fun s => if negli (snd s) then 0
                     else abs_sum (energies (filter (fun r => fst s =? tgt r) rows))) df)
  <= abs_sum (energies rows).
Proof.
  intros Hnd. induction rows as [| r rows IH].
  - rewrite (sum_map_ext _ (fun _ => 0))
      by (intros [l w] _; cbn [fst snd]; destruct (negli w); reflexivity).
    rewrite sum_map_zero. apply abs_sum_nonneg.
  - rewrite abs_energies_cons.
    assert (Hstep :
      sum (map (fun s => if negli (snd s) then 0
                         else abs_sum (energies (filter (fun r0 => fst s =? tgt r0) (r :: rows)))) df)
      = sum (map (fun s => if negli (snd s) then 0
                           else if fst s =? tgt r then Z.abs (E (snd r)) else 0) df)
        + sum (map (fun s => if negli (snd s) then 0
                             else abs_sum (energies (filter (fun r0 => fst s =? tgt r0) rows))) df)).
    { rewrite <- sum_map_add. apply sum_map_ext. intros [l w] _. cbn [fst snd].
      destruct (negli w); [reflexivity |].
      simpl filter. destruct (l =? tgt r).
      - now rewrite abs_energies_cons.
      - lia. }
    rewrite Hstep.
    pose proof (sum_at_most_once df (tgt r) (Z.abs (E (snd r))) Hnd (Z.abs_nonneg _)).
    lia.
Qed.

Lemma abs_energies_partition (df : DataFrame) :
  abs_sum (energies df)
  = sum (map (fun s => if negli (snd s) then 0 else Z.abs (E (snd s))) df)
    + abs_sum (energies (select_negli df)).
Proof.
  induction df as [| [i v] df IH].
  - reflexivity.
  - rewrite abs_energies_cons, select_negli_cons. simpl map. rewrite sum_cons.
    simpl snd. destruct (negli v); [rewrite abs_energies_cons; simpl snd |]; lia.
Qed.

(** The returned energies hold, in magnitude, no more than the table. *)
Lemma new_energy_abs_bound (df : DataFrame) :
  NoDup (index df) ->
  abs_sum (map (new_energy df) df) <= abs_sum (energies df).
Proof.
  intros Hnd. unfold abs_sum at 1. rewrite map_map.
  rewrite abs_energies_partition.
  pose proof (routed_abs_bound df (target df) (select_negli df) Hnd) as Hr.
  apply Z.le_trans with
    (sum (map (fun s => (if negli (snd s) then 0 else Z.abs (E (snd s)))
                        + (if negli (snd s) then 0
                           else abs_sum (energies
                                  (filter (fun r => fst s =? target df r) (select_negli df)))))
              df)).
  - apply sum_map_le. intros [l w] _. unfold new_energy, routed. cbn [fst snd].
    destruct (negli w); [simpl; lia |].
    eapply Z.le_trans; [apply Z.abs_triangle |].
    apply Z.add_le_mono_l. apply sum_le_abs_sum.
  - rewrite sum_map_add. apply Z.add_le_mono_l. exact Hr.
Qed.




(** The hypothesis on the energies cannot be dropped: the table of
    energies 1, 1 and 2^53 has unique labels and every negligible voxel
    within reach of the significant one, and the two sums differ. *)
Example energy_not_conserved_when_rounding :
  NoDup (index rounding_voxels)
  /\ all_within_reach rounding_voxels
  /\ get_new_energies_b64 rounding_voxels = Some [0; 2 ^ 53; 0]
  /\ b64_sum [0; 2 ^ 53; 0] <> b64_sum (energies rounding_voxels).
Proof.
  split; [| split; [| split]].
  - unfold index. simpl. repeat constructor; simpl; intuition discriminate.
  - intros n vn Hin Hneg. exists 1, (mkVoxel 1 0 0 1 false).
    split; [right; left; reflexivity |]. split; [reflexivity |].
    destruct Hin as [H | [H | [H | []]]]; injection H as <- <-;
      solve [discriminate Hneg | reflexivity].
  - vm_compute. reflexivity.
  - vm_compute. discriminate.
Qed.

(** The energy balance in float64, on any table with unique labels and
    exact energies: the sum of the returned energies plus the sum of the
    energies of the negligible voxels that have no significant voxel within
    reach equals the sum of the energies of the table. *)
Theorem energy_balance_binary64 :
  forall event_voxels : DataFrame,
    NoDup (index event_voxels) ->
    exact_energies event_voxels ->
    exists new_energies,
      get_new_energies_b64 event_voxels = Some new_energies
      /\ b64_add (b64_sum new_energies) (b64_sum (energies (unreached event_voxels)))
         = b64_sum (energies event_voxels).
Proof.
  intros df Hnd Hex. exists (map (new_energy df) df). split.
  - rewrite (get_new_energies_b64_exact df Hnd Hex).
    now apply get_new_energies_rows.
  - destruct (energy_balance df Hnd) as [out [Hget Hbal]].
    rewrite (get_new_energies_rows df Hnd) in Hget. injection Hget as <-.
    pose proof (new_energy_abs_bound df Hnd) as Hout.
    pose proof (abs_energies_filter (fun r => negb (reachable df (snd r))) (select_negli df))
      as Hun.
    fold (unreached df) in Hun.
    pose proof (abs_energies_negli df) as Hneg.
    pose proof (sum_le_abs_sum (energies df)) as Hsum.
    unfold exact_energies in Hex.
    rewrite !b64_sum_exact by lia.
    unfold b64_add. rewrite Hbal. apply b64_round_exact. lia.
Qed.

Lemma far_voxels_exact_energies : exact_energies far_voxels.
Proof. unfold exact_energies. vm_compute. discriminate. Qed.

Lemma energy_balance_binary64_witness :
  exists new_energies,
    get_new_energies_b64 far_voxels = Some new_energies
    /\ b64_add (b64_sum new_energies) (b64_sum (energies (unreached far_voxels)))
       = b64_sum (energies far_voxels).
Proof.
  apply (energy_balance_binary64 far_voxels).
  - exact far_voxels_unique_labels.
  - exact far_voxels_exact_energies.
Defined.
